(** * Time integration of elastodynamics: explicit central differences and Newmark-beta

    Shallow embedding of the time-stepping cells of the course notebooks
    [05-Dynamics-Explicite-time-integration/Explicit_given_to_class_nonlin.ipynb]
    (explicit scheme) and of the Newmark notebook (implicit scheme).

    Conventions of the embedding.
    - Python floats are idealised as exact rationals ([Qc], canonical
      fractions, so that equality is Leibniz equality).  Rounding is not
      modelled, except for the load schedule: module [Binary64] has
      [load_eval] on the binary64 numbers of the machine.
    - A finite-element function is the array of its degree-of-freedom values
      ([u.x.array]), a [list Qc].
    - A UFL form with a test function is a function of the coefficient array
      of the test function; [assemble_vector] tests it against the nodal
      basis.  The integrals [inner(u,v)*dx], the linear elasticity form, the
      first Piola-Kirchhoff residual and the boundary integral over [ds(2)]
      come from the finite-element library; their discrete data is gathered
      in the record [problem_data].
    - [ZeroDivisionError] is the result [None].  Module [Control] has the
      two loops with their failures only: an error of the library solver is
      a failure too, and the [inf] that numpy leaves for [1./0.] is not.
    - The post-processing of the loops does not feed back into the state.
      The energies of the explicit loop are computed from the trajectory
      (module [Energy]); the probes of strain and tip displacement and the
      file output are left out. *)

From Stdlib Require Import ZArith QArith Qcanon List Lia Lqa Bool Arith PeanoNat.
From Stdlib Require Import Floats.
Import ListNotations.

Local Open Scope Qc_scope.

(* ================================================================= *)
(** ** Arrays of degree-of-freedom values *)

Module Vec.

Definition vector := list Qc.
Definition matrix := list vector.

(** [np.full(n, c)], also the effect of [x.array[:] = c] on an array of size [n]. *)
Definition full (n : nat) (c : Qc) : vector := repeat c n.

Fixpoint zip_with (f : Qc -> Qc -> Qc) (x y : vector) : vector :=
  match x, y with
  | a :: x', b :: y' => f a b :: zip_with f x' y'
  | _, _ => []
  end.

Definition vadd : vector -> vector -> vector := zip_with Qcplus.
Definition vsub : vector -> vector -> vector := zip_with Qcminus.

(** [np.multiply(x, y)]: elementwise product. *)
Definition multiply : vector -> vector -> vector := zip_with Qcmult.

Definition vscale (c : Qc) (x : vector) : vector := map (Qcmult c) x.

(** PETSc [y.axpy(alpha, x)]: [y <- y + alpha*x]; the new value of [y]. *)
Definition axpy (y : vector) (alpha : Qc) (x : vector) : vector :=
  vadd y (vscale alpha x).

Fixpoint dot (x y : vector) : Qc :=
  match x, y with
  | a :: x', b :: y' => a * b + dot x' y'
  | _, _ => 0
  end.

Definition matvec (A : matrix) (x : vector) : vector :=
  map (fun row => dot row x) A.

(** Coefficient array of the [i]-th nodal basis function of a space with [n] dofs. *)
Definition basis (n i : nat) : vector :=
  map (fun j => if Nat.eqb j i then 1 else 0) (seq 0 n).

(** Decidable equality on arrays, by comparison of the fractions. *)
Definition Qc_eqb (a b : Qc) : bool := Qeq_bool a b.

Fixpoint veqb (x y : vector) : bool :=
  match x, y with
  | [], [] => true
  | a :: x', b :: y' => Qc_eqb a b && veqb x' y'
  | _, _ => false
  end.

Definition Qc_of_nat (n : nat) : Qc := Q2Qc (inject_Z (Z.of_nat n)).

End Vec.
Import Vec.

(* ================================================================= *)
(** ** What the finite-element library supplies, and the forms of the notebooks *)

Module FE.

(** Discrete data of the mesh, of the space [V] (vector Lagrange P1, block
    size 2) and of the integrals the notebooks write symbolically. *)
Record problem_data := {
  ndofs : nat;                       (* size of [u.x.array] for [u] in [V] *)
  rho : Qc;                          (* [rho = Constant(1.)] *)
  inner_dx : matrix;                 (* [inner(u, v)*dx] *)
  elasticity_dx : matrix;            (* [inner(stress_linear(strain_displacement(u)), strain_displacement(v))*dx] *)
  piola_dx : vector -> vector;       (* [inner(stress_nonlinear(u), grad(v))*dx], nonlinear in [u] *)
  ds2_x : vector;                    (* [v[0]*ds(2)] *)
  ds2_y : vector;                    (* [v[1]*ds(2)] *)
  boundary_clamped_dofs : list nat   (* blocks located on the facets tagged 1 *)
}.

(** A form with a test function, and a form with a trial (or coefficient)
    function and a test function. *)
Definition form1 := vector -> Qc.
Definition form2 := vector -> vector -> Qc.

(** [u_D = np.array([0,0])]: the clamped end does not move. *)
Definition u_D : Qc * Qc := (0, 0).

Record DirichletBC := {
  bc_value : Qc * Qc;
  bc_blocks : list nat
}.

Definition dirichletbc (g : Qc * Qc) (blocks : list nat) : DirichletBC :=
  {| bc_value := g; bc_blocks := blocks |}.

(** [bc = dirichletbc(u_D, boundary_clamped_dofs, V)] *)
Definition bc (pd : problem_data) : DirichletBC :=
  dirichletbc u_D (boundary_clamped_dofs pd).

(** Dof [i] is component [i mod 2] of block [i / 2]. *)
Definition is_constrained (b : DirichletBC) (i : nat) : bool :=
  existsb (Nat.eqb (i / 2)) (bc_blocks b).

Definition prescribed (b : DirichletBC) (i : nat) : Qc :=
  if Nat.even i then fst (bc_value b) else snd (bc_value b).

Fixpoint set_bc_from (b : DirichletBC) (i : nat) (x : vector) : vector :=
  match x with
  | [] => []
  | a :: x' =>
      (if is_constrained b i then prescribed b i else a) :: set_bc_from b (S i) x'
  end.

(** [dolfinx.fem.set_bc(x, [bc])]: the constrained entries receive the
    prescribed value, the others are kept. *)
Definition set_bc (b : DirichletBC) (x : vector) : vector := set_bc_from b 0 x.

Definition stiffness_linear (pd : problem_data) : form2 :=
  fun u v => dot (matvec (elasticity_dx pd) u) v.

Definition stiffness_nonlinear (pd : problem_data) : form2 :=
  fun u v => dot (piola_dx pd u) v.

Definition mass (pd : problem_data) : form2 :=
  fun u v => rho pd * dot (matvec (inner_dx pd) u) v.

Definition damping (pd : problem_data) (eta_m eta_k : Qc) : form2 :=
  fun u v => eta_m * mass pd u v + eta_k * stiffness_linear pd u v.

Definition p_ext (pd : problem_data) (traction : Qc * Qc) : form1 :=
  fun u => fst traction * dot (ds2_x pd) u + snd traction * dot (ds2_y pd) u.

(** [assemble_vector(form(L))]: entry [i] is [L] at the [i]-th basis function. *)
Definition assemble_vector (pd : problem_data) (L : form1) : vector :=
  map (fun i => L (basis (ndofs pd) i)) (seq 0 (ndofs pd)).

(** [load_eval], with the globals [sigma_max] and [t_cutoff] as arguments. *)
Definition load_eval (sigma_max t_cutoff t : Qc) : option Qc :=
  if Qle_bool t t_cutoff then
    if Qc_eqb t_cutoff 0 then None else Some (sigma_max * t / t_cutoff)
  else Some 0.

(** [dt = t_end/num_steps] *)
Definition time_step (t_end : Qc) (num_steps : nat) : option Qc :=
  if Nat.eqb num_steps 0 then None else Some (t_end / Qc_of_nat num_steps).

(** [for n in range(num_steps)]: the states after each iteration, each with
    its time label [(n+1)*dt]. *)
Fixpoint time_loop {S : Type} (step : nat -> S -> option S) (dt : Qc)
    (ns : list nat) (s : S) : option (list (Qc * S)) :=
  match ns with
  | [] => Some []
  | n :: ns' =>
      match step n s with
      | None => None
      | Some s' =>
          match time_loop step dt ns' s' with
          | None => None
          | Some tr => Some ((Qc_of_nat (n + 1) * dt, s') :: tr)
          end
      end
  end.

(** Contract of [LinearProblem(a, L, bcs=[bc]).solve()], the direct solver of
    the library: the result has the prescribed values on the constrained
    dofs and satisfies the equation tested against every other basis
    function. *)
Definition solves (pd : problem_data) (a : form2) (L : form1) (x : vector) : Prop :=
  length x = ndofs pd /\
  forall i, (i < ndofs pd)%nat ->
    if is_constrained (bc pd) i then nth i x 0 = prescribed (bc pd) i
    else a x (basis (ndofs pd) i) = L (basis (ndofs pd) i).

(** An array satisfies the boundary condition when its constrained entries
    hold the prescribed value. *)
Definition satisfies_bc (pd : problem_data) (x : vector) : Prop :=
  forall i, (i < length x)%nat -> is_constrained (bc pd) i = true ->
            nth i x 0 = prescribed (bc pd) i.

(** The constrained dofs of an array of the size of [V] hold the prescribed
    value, zero at the clamped end, and imposing the boundary condition
    again changes nothing. *)
Definition clamped (pd : problem_data) (u : vector) : Prop :=
  length u = ndofs pd
  /\ (forall i, (i < ndofs pd)%nat -> is_constrained (bc pd) i = true ->
                nth i u 0 = prescribed (bc pd) i /\ nth i u 0 = 0)
  /\ set_bc (bc pd) u = u.

(** An instance of the library solver for the examples: it is exact when
    distinct unconstrained dofs are not coupled by [a]. *)
Definition uncoupled_solve (pd : problem_data) (a : form2) (L : form1) : vector :=
  map (fun i =>
         if is_constrained (bc pd) i then prescribed (bc pd) i
         else L (basis (ndofs pd) i) / a (basis (ndofs pd) i) (basis (ndofs pd) i))
      (seq 0 (ndofs pd)).

End FE.
Import FE.

(* ================================================================= *)
(** ** The explicit scheme *)

Module Explicit.

(** The cell of the parameters that can be changed. *)
Record parameters := {
  use_linear_model : bool;
  use_lumped_mass : bool;
  eta_m : Qc;
  eta_k : Qc;
  t_end : Qc;
  num_steps : nat;
  t_cutoff : Qc;
  sigma_max : Qc
}.

Record state := {
  u_sol : vector;   (* displacement *)
  v_sol : vector;   (* velocity *)
  a_sol : vector    (* acceleration *)
}.

Definition damping (pd : problem_data) (p : parameters) : form2 :=
  FE.damping pd (eta_m p) (eta_k p).

(** [stiffness = stiffness_linear if use_linear_model else stiffness_nonlinear] *)
Definition stiffness (pd : problem_data) (p : parameters) : form2 :=
  if use_linear_model p then stiffness_linear pd else stiffness_nonlinear pd.

(** [f_load = p_ext(u_bar) - stiffness(u_sol,u_bar) - damping(v_sol,u_bar)],
    a form in the test function [u_bar] with the coefficients [traction],
    [u_sol] and [v_sol]. *)
Definition f_load (pd : problem_data) (p : parameters) (traction : Qc * Qc)
    (u v : vector) : form1 :=
  fun u_bar => p_ext pd traction u_bar - stiffness pd p u u_bar - damping pd p v u_bar.

(** [assemble_vector(form(action(mass(u,u_bar), ones)))]: the row sums of the
    mass matrix. *)
Definition M_lumped (pd : problem_data) : vector :=
  assemble_vector pd (fun u_bar => mass pd (full (ndofs pd) 1) u_bar).

Definition reciprocal (x : Qc) : option Qc :=
  if Qc_eqb x 0 then None else Some (1 / x).

Fixpoint reciprocals (x : vector) : option vector :=
  match x with
  | [] => Some []
  | a :: x' =>
      match reciprocal a, reciprocals x' with
      | Some r, Some rs => Some (r :: rs)
      | _, _ => None
      end
  end.

(** [M_lumped_inv.array[:] = 1./M_lumped_inv.array[:]]; [None] when an entry
    has no finite inverse. *)
Definition M_lumped_inv (pd : problem_data) : option vector :=
  reciprocals (M_lumped pd).

Definition dt (p : parameters) : option Qc := time_step (t_end p) (num_steps p).

(** The same parameters with another choice of [use_lumped_mass]. *)
Definition with_lumped_mass (b : bool) (p : parameters) : parameters :=
  {| use_linear_model := use_linear_model p;
     use_lumped_mass := b;
     eta_m := eta_m p;
     eta_k := eta_k p;
     t_end := t_end p;
     num_steps := num_steps p;
     t_cutoff := t_cutoff p;
     sigma_max := sigma_max p |}.

(** [u_sol.x.array[:] = 0.] and likewise for [v_sol] and [a_sol]. *)
Definition initial_state (pd : problem_data) : state :=
  {| u_sol := full (ndofs pd) 0; v_sol := full (ndofs pd) 0; a_sol := full (ndofs pd) 0 |}.

(** The first half of the loop body: the load at [(n+1)*dt], then the new
    acceleration.  [solve] is [LinearProblem(mass(u,u_bar), f_load, bcs=[bc])]. *)
Definition update_acceleration (solve : form2 -> form1 -> vector)
    (pd : problem_data) (p : parameters) (Minv : option vector) (h : Qc)
    (n : nat) (s : state) : option state :=
  match load_eval (sigma_max p) (t_cutoff p) (Qc_of_nat (n + 1) * h) with
  | None => None
  | Some sigma =>
      let traction := (sigma, 0) in
      if use_lumped_mass p then
        match Minv with
        | None => None
        | Some m =>
            let af := assemble_vector pd (f_load pd p traction (u_sol s) (v_sol s)) in
            let a := multiply m af in
            Some {| u_sol := set_bc (bc pd) (u_sol s);
                    v_sol := set_bc (bc pd) (v_sol s);
                    a_sol := set_bc (bc pd) a |}
        end
      else
        Some {| u_sol := u_sol s;
                v_sol := v_sol s;
                a_sol := solve (mass pd) (f_load pd p traction (u_sol s) (v_sol s)) |}
  end.

(** The corrector: [v_sol.vector.axpy(dt, a_sol.vector)] and then
    [u_sol.vector.axpy(dt, v_sol.vector)]. *)
Definition corrector (h : Qc) (s : state) : state :=
  let v := axpy (v_sol s) h (a_sol s) in
  let u := axpy (u_sol s) h v in
  {| u_sol := u; v_sol := v; a_sol := a_sol s |}.

Definition explicit_step (solve : form2 -> form1 -> vector)
    (pd : problem_data) (p : parameters) (Minv : option vector) (h : Qc)
    (n : nat) (s : state) : option state :=
  option_map (corrector h) (update_acceleration solve pd p Minv h n s).

(** The whole time-stepping cell. *)
Definition run (solve : form2 -> form1 -> vector)
    (pd : problem_data) (p : parameters) : option (list (Qc * state)) :=
  match dt p with
  | None => None
  | Some h =>
      time_loop (explicit_step solve pd p (M_lumped_inv pd) h) h
                (seq 0 (num_steps p)) (initial_state pd)
  end.

(** Arrays of the size of [V] whose displacement and velocity satisfy the
    boundary condition. *)
Definition admissible (pd : problem_data) (s : state) : Prop :=
  length (u_sol s) = ndofs pd /\ length (v_sol s) = ndofs pd
  /\ satisfies_bc pd (u_sol s) /\ satisfies_bc pd (v_sol s).

(** The library solver meets its contract on the mass problem. *)
Definition solver_ok (solve : form2 -> form1 -> vector) (pd : problem_data) : Prop :=
  forall L, solves pd (mass pd) L (solve (mass pd) L).

End Explicit.

(* ================================================================= *)
(** ** The implicit Newmark-beta scheme *)

Module Newmark.

Record parameters := {
  eta_m : Qc;
  eta_k : Qc;
  t_end : Qc;
  num_steps : nat;
  t_cutoff : Qc;
  sigma_max : Qc;
  gamma : Qc;
  beta : Qc
}.

Record state := {
  u_sol : vector;     (* displacement *)
  vit_sol : vector;   (* velocity *)
  acc_sol : vector    (* acceleration *)
}.

Definition damping (pd : problem_data) (p : parameters) : form2 :=
  FE.damping pd (eta_m p) (eta_k p).

(** [stiffness = stiffness_linear] *)
Definition stiffness (pd : problem_data) : form2 := stiffness_linear pd.

Definition dt (p : parameters) : option Qc := time_step (t_end p) (num_steps p).

Definition two : Qc := 1 + 1.

(** Modelled from the spec: the notebook leaves [A(acc, v) = mass(acc, v) + XXX]
    open; section 4.2 gives the effective operator
    [A = M + gamma*dt*C + beta*dt^2*K]. *)
Definition A (pd : problem_data) (p : parameters) (h : Qc) : form2 :=
  fun acc v =>
    mass pd acc v + gamma p * h * damping pd p acc v
    + beta p * h * h * stiffness pd acc v.

(** Modelled from the spec: the notebook leaves [f_load = p_ext(v) - XXX] open;
    section 4.2 gives the right-hand side [F(t_{n+1}) - K u_hat - C v_hat],
    with the predictors as coefficients. *)
Definition f_load (pd : problem_data) (p : parameters) (traction : Qc * Qc)
    (u_hat v_hat : vector) : form1 :=
  fun v => p_ext pd traction v - stiffness pd u_hat v - damping pd p v_hat v.

(** Modelled from the spec: the predictor written with [axpy] is [XXX] in the
    notebook; section 4.2 gives
    [u_hat = u + dt*v + dt^2/2*(1-2*beta)*a] and [v_hat = v + dt*(1-gamma)*a]. *)
Definition predictor (p : parameters) (h : Qc) (s : state) : vector * vector :=
  let u_hat :=
    axpy (axpy (u_sol s) h (vit_sol s))
         (h * h / two * (1 - two * beta p)) (acc_sol s) in
  let v_hat := axpy (vit_sol s) (h * (1 - gamma p)) (acc_sol s) in
  (u_hat, v_hat).

(** Modelled from the spec: the corrector is [XXX] in the notebook; section 4.2
    gives [u = u_hat + beta*dt^2*a] and [v = v_hat + gamma*dt*a] for the new
    acceleration [a]. *)
Definition corrector (p : parameters) (h : Qc) (u_hat v_hat acc : vector) : state :=
  {| u_sol := axpy u_hat (beta p * h * h) acc;
     vit_sol := axpy v_hat (gamma p * h) acc;
     acc_sol := acc |}.

(** Modelled from the spec: one iteration of the loop, whose body is [XXX] in
    the notebook: predictor, traction at [(n+1)*dt], solve of
    [LinearProblem(A(acc,v), f_load, bcs=[bc])], corrector. *)
Definition newmark_step (solve : form2 -> form1 -> vector)
    (pd : problem_data) (p : parameters) (h : Qc) (n : nat) (s : state)
    : option state :=
  let '(u_hat, v_hat) := predictor p h s in
  match load_eval (sigma_max p) (t_cutoff p) (Qc_of_nat (n + 1) * h) with
  | None => None
  | Some sigma =>
      let acc := solve (A pd p h) (f_load pd p (sigma, 0) u_hat v_hat) in
      Some (corrector p h u_hat v_hat acc)
  end.

Definition initial_state (pd : problem_data) : state :=
  {| u_sol := full (ndofs pd) 0; vit_sol := full (ndofs pd) 0;
     acc_sol := full (ndofs pd) 0 |}.

Definition run (solve : form2 -> form1 -> vector)
    (pd : problem_data) (p : parameters) : option (list (Qc * state)) :=
  match dt p with
  | None => None
  | Some h =>
      time_loop (newmark_step solve pd p h) h (seq 0 (num_steps p))
                (initial_state pd)
  end.

(** Arrays of the size of [V] that satisfy the boundary condition. *)
Definition admissible (pd : problem_data) (s : state) : Prop :=
  (length (u_sol s) = ndofs pd /\ satisfies_bc pd (u_sol s))
  /\ (length (vit_sol s) = ndofs pd /\ satisfies_bc pd (vit_sol s))
  /\ (length (acc_sol s) = ndofs pd /\ satisfies_bc pd (acc_sol s)).

(** The library solver meets its contract on the effective problem. *)
Definition solver_ok (solve : form2 -> form1 -> vector) (pd : problem_data)
    (p : parameters) (h : Qc) : Prop :=
  forall L, solves pd (A pd p h) L (solve (A pd p h) L).

End Newmark.

(* ================================================================= *)
(** ** The load schedule on the numbers of the machine

    [load_eval] as Python evaluates it: on binary64 numbers, with the
    product and the quotient each rounded to nearest.  The function has no
    parameter for the peak: it reads the names [sigma_max] and (in the
    explicit notebook) [t_cutoff] of the notebook when it is called.  The two
    names are the fields of [globals]; a call takes the globals and gives
    them back, with the value returned. *)

Module Binary64.
Local Open Scope float_scope.

Record globals := {
  sigma_max : float;
  t_cutoff : float
}.

(** The outcome of a call: the value returned, [None] for an exception, and
    the globals after the call. *)
Definition outcome : Type := option float * globals.

(** Explicit notebook: [def load_eval(t)].  A comparison with [nan] is false;
    [None] is the [ZeroDivisionError] of a division by [0.0] or [-0.0].  The
    body assigns no name. *)
Definition load_eval (t : float) (g : globals) : outcome :=
  (if t <=? t_cutoff g then
     if t_cutoff g =? 0 then None else Some (sigma_max g * t / t_cutoff g)
   else Some 0,
   g).

(** Newmark notebook: [def load_eval(t,t_cutoff)]; the cut-off is a
    parameter, the peak is read from the notebook. *)
Definition load_eval_newmark (t t_cutoff : float) (g : globals) : outcome :=
  (if t <=? t_cutoff then
     if t_cutoff =? 0 then None else Some (sigma_max g * t / t_cutoff)
   else Some 0,
   g).

End Binary64.

(* ================================================================= *)
(** ** The loops with their failures

    What stops a loop is an exception: the [ZeroDivisionError] of
    [load_eval], or the error that [problem.solve()] passes on from the
    linear solver.  The division [1./M_lumped_inv.array[:]] is a division of
    numpy arrays and raises nothing: a zero row sum leaves [inf], and the
    loop goes on with arrays that are not finite. *)

Module Control.

(** [problem.solve()]: the solution, or the error of the linear solver. *)
Definition solver := form2 -> form1 -> option vector.

(** The arrays [u_sol], [v_sol], [a_sol] of the explicit loop: their values,
    or arrays computed with an [inf] of the inverse lumped mass, which may
    hold [inf] or [nan] and whose values are not followed. *)
Inductive arrays : Type :=
| values (s : Explicit.state)
| unfollowed.

(** One iteration of the explicit loop.  Arrays that are not followed come
    from the inverse of a zero row sum, with [use_lumped_mass] only; the flag
    does not change during a run, so the solve never meets them. *)
Definition explicit_iteration (solve : solver) (pd : problem_data)
    (p : Explicit.parameters) (h : Qc) (n : nat) (s : arrays) : option arrays :=
  match load_eval (Explicit.sigma_max p) (Explicit.t_cutoff p)
                  (Qc_of_nat (n + 1) * h) with
  | None => None
  | Some sigma =>
      let traction := (sigma, 0) in
      if Explicit.use_lumped_mass p then
        match s, Explicit.M_lumped_inv pd with
        | values s0, Some m =>
            let af := assemble_vector pd
                        (Explicit.f_load pd p traction
                           (Explicit.u_sol s0) (Explicit.v_sol s0)) in
            let a := multiply m af in
            Some (values
                    (Explicit.corrector h
                       {| Explicit.u_sol := set_bc (bc pd) (Explicit.u_sol s0);
                          Explicit.v_sol := set_bc (bc pd) (Explicit.v_sol s0);
                          Explicit.a_sol := set_bc (bc pd) a |}))
        | _, _ => Some unfollowed
        end
      else
        match s with
        | values s0 =>
            match solve (mass pd)
                        (Explicit.f_load pd p traction
                           (Explicit.u_sol s0) (Explicit.v_sol s0)) with
            | None => None
            | Some a =>
                Some (values
                        (Explicit.corrector h
                           {| Explicit.u_sol := Explicit.u_sol s0;
                              Explicit.v_sol := Explicit.v_sol s0;
                              Explicit.a_sol := a |}))
            end
        | unfollowed => Some unfollowed
        end
  end.

Definition explicit_run (solve : solver) (pd : problem_data)
    (p : Explicit.parameters) : option (list (Qc * arrays)) :=
  match Explicit.dt p with
  | None => None
  | Some h =>
      time_loop (explicit_iteration solve pd p h) h
                (seq 0 (Explicit.num_steps p)) (values (Explicit.initial_state pd))
  end.

(** Modelled from the spec: one iteration of the Newmark loop, whose body is
    [XXX] in the notebook, as section 4.2 has it (predictor, traction, solve,
    corrector), with the error handling of sections 4.2 and 7: a failed solve
    is passed on, not retried. *)
Definition newmark_iteration (solve : solver) (pd : problem_data)
    (p : Newmark.parameters) (h : Qc) (n : nat) (s : Newmark.state)
    : option Newmark.state :=
  let '(u_hat, v_hat) := Newmark.predictor p h s in
  match load_eval (Newmark.sigma_max p) (Newmark.t_cutoff p)
                  (Qc_of_nat (n + 1) * h) with
  | None => None
  | Some sigma =>
      match solve (Newmark.A pd p h) (Newmark.f_load pd p (sigma, 0) u_hat v_hat) with
      | None => None
      | Some acc => Some (Newmark.corrector p h u_hat v_hat acc)
      end
  end.

Definition newmark_run (solve : solver) (pd : problem_data)
    (p : Newmark.parameters) : option (list (Qc * Newmark.state)) :=
  match Newmark.dt p with
  | None => None
  | Some h =>
      time_loop (newmark_iteration solve pd p h) h
                (seq 0 (Newmark.num_steps p)) (Newmark.initial_state pd)
  end.

(** A solver that does not fail. *)
Definition returns (solve : form2 -> form1 -> vector) : solver :=
  fun a L => Some (solve a L).

(** A solver that reports an error for every system. *)
Definition fails : solver := fun _ _ => None.

End Control.

(* ================================================================= *)
(** ** When lumping the mass changes nothing *)

Module Lumping.

(** The row sums act on the array [a] as the mass matrix does: at every
    unconstrained dof, [M a] and [M_lumped * a] have the same entry. *)
Definition exact_on (pd : problem_data) (a : vector) : Prop :=
  forall i, (i < ndofs pd)%nat -> is_constrained (bc pd) i = false ->
    mass pd a (basis (ndofs pd) i) = nth i (Explicit.M_lumped pd) 0 * nth i a 0.

End Lumping.

(* ================================================================= *)
(** ** A bar of two nodes, clamped at node 0 and pulled at node 1

    Dofs 0 and 1 belong to the clamped node, dofs 2 and 3 to the loaded one. *)

Module Bar.

Definition two : Qc := 1 + 1.

Definition springs : matrix :=
  [ [ 1; 0; -(1); 0 ];
    [ 0; 1; 0; -(1) ];
    [ -(1); 0; 1; 0 ];
    [ 0; -(1); 0; 1 ] ].

(** A hardening spring: the linear response plus its cube, entry by entry. *)
Definition hardening (u : vector) : vector :=
  map (fun r => r + r * r * r) (matvec springs u).

(** Consistent mass matrix (up to the factor 1/6): the two nodes are coupled. *)
Definition consistent : problem_data :=
  {| ndofs := 4;
     rho := 1;
     inner_dx := [ [ two; 0; 1; 0 ];
                   [ 0; two; 0; 1 ];
                   [ 1; 0; two; 0 ];
                   [ 0; 1; 0; two ] ];
     elasticity_dx := springs;
     piola_dx := hardening;
     ds2_x := [ 0; 0; 1; 0 ];
     ds2_y := [ 0; 0; 0; 1 ];
     boundary_clamped_dofs := [ 0%nat ] |}.

(** The same bar with a diagonal mass matrix. *)
Definition diagonal : problem_data :=
  {| ndofs := 4;
     rho := 1;
     inner_dx := [ [ two; 0; 0; 0 ];
                   [ 0; two; 0; 0 ];
                   [ 0; 0; two; 0 ];
                   [ 0; 0; 0; two ] ];
     elasticity_dx := springs;
     piola_dx := hardening;
     ds2_x := [ 0; 0; 1; 0 ];
     ds2_y := [ 0; 0; 0; 1 ];
     boundary_clamped_dofs := [ 0%nat ] |}.

Definition explicit_parameters (linear lumped : bool) (t_end : Qc) (steps : nat)
    : Explicit.parameters :=
  {| Explicit.use_linear_model := linear;
     Explicit.use_lumped_mass := lumped;
     Explicit.eta_m := 0;
     Explicit.eta_k := 1;
     Explicit.t_end := t_end;
     Explicit.num_steps := steps;
     Explicit.t_cutoff := two;
     Explicit.sigma_max := 1 |}.

(** The explicit run without load: [sigma_max = 0]. *)
Definition unloaded_parameters (linear lumped : bool) (t_end : Qc) (steps : nat)
    : Explicit.parameters :=
  {| Explicit.use_linear_model := linear;
     Explicit.use_lumped_mass := lumped;
     Explicit.eta_m := 0;
     Explicit.eta_k := 1;
     Explicit.t_end := t_end;
     Explicit.num_steps := steps;
     Explicit.t_cutoff := two;
     Explicit.sigma_max := 0 |}.

Definition newmark_parameters (t_end : Qc) (steps : nat) : Newmark.parameters :=
  {| Newmark.eta_m := 0;
     Newmark.eta_k := 1;
     Newmark.t_end := t_end;
     Newmark.num_steps := steps;
     Newmark.t_cutoff := two;
     Newmark.sigma_max := 1;
     Newmark.gamma := 1 / two;
     Newmark.beta := 1 / (two * two) |}.

End Bar.

(* ================================================================= *)
(** ** Linear elasticity at a point: material cell and constitutive law

    The cells [mu = ...], [lambda_ = ...], [strain_displacement] and
    [stress_linear], with [Y] and [nu] as arguments.  A second-order tensor
    of the plane is the record of its four components; the gradient of the
    displacement at a point stands for [ufl.grad(u)]. *)

Module Material.

Definition two : Qc := 1 + 1.

(** [mu = Y/(2.*(1.+nu))] *)
Definition mu (Y nu : Qc) : option Qc :=
  if Qc_eqb (two * (1 + nu)) 0 then None else Some (Y / (two * (1 + nu))).

(** [lambda_ = Y*nu/((1.+nu)*(1.-2.*nu))] *)
Definition lambda_ (Y nu : Qc) : option Qc :=
  if Qc_eqb ((1 + nu) * (1 - two * nu)) 0 then None
  else Some (Y * nu / ((1 + nu) * (1 - two * nu))).

Record tensor := {
  t00 : Qc; t01 : Qc;
  t10 : Qc; t11 : Qc
}.

(** [I2 = ufl.Identity(2)] *)
Definition I2 : tensor := {| t00 := 1; t01 := 0; t10 := 0; t11 := 1 |}.

Definition zero : tensor := {| t00 := 0; t01 := 0; t10 := 0; t11 := 0 |}.

Definition tadd (a b : tensor) : tensor :=
  {| t00 := t00 a + t00 b; t01 := t01 a + t01 b;
     t10 := t10 a + t10 b; t11 := t11 a + t11 b |}.

Definition tscale (c : Qc) (a : tensor) : tensor :=
  {| t00 := c * t00 a; t01 := c * t01 a; t10 := c * t10 a; t11 := c * t11 a |}.

Definition transpose (a : tensor) : tensor :=
  {| t00 := t00 a; t01 := t10 a; t10 := t01 a; t11 := t11 a |}.

(** [ufl.tr], [ufl.inner] and [ufl.sym] on tensors of the plane. *)
Definition tr (a : tensor) : Qc := t00 a + t11 a.

Definition inner (a b : tensor) : Qc :=
  t00 a * t00 b + t01 a * t01 b + t10 a * t10 b + t11 a * t11 b.

Definition sym (a : tensor) : tensor := tscale (1 / two) (tadd a (transpose a)).

(** [strain_displacement(u) = ufl.sym(ufl.grad(u))], as a function of the
    gradient. *)
Definition strain_displacement (grad_u : tensor) : tensor := sym grad_u.

(** [stress_linear(eps) = lambda_*ufl.tr(eps)*I2 + 2.*mu*eps] *)
Definition stress_linear (lambda_ mu : Qc) (eps : tensor) : tensor :=
  tadd (tscale (lambda_ * tr eps) I2) (tscale (two * mu) eps).

(** The integrand of [stiffness_linear(u, v)]:
    [inner(stress_linear(strain_displacement(u)), strain_displacement(v))]. *)
Definition stiffness_linear (lambda_ mu : Qc) (grad_u grad_v : tensor) : Qc :=
  inner (stress_linear lambda_ mu (strain_displacement grad_u))
        (strain_displacement grad_v).

End Material.

(* ================================================================= *)
(** ** Post-processing of the explicit loop: times and energies *)

Module Energy.

(** [times = dt*np.arange(num_steps+1)] *)
Definition times (h : Qc) (num_steps : nat) : vector :=
  map (fun k => h * Qc_of_nat k) (seq 0 (num_steps + 1)).

(** One row of [energies]: [[E_elas, E_kin, E_damp, E_tot]]. *)
Record row := {
  E_elas : Qc;
  E_kin : Qc;
  E_damp : Qc;
  E_tot : Qc
}.

Definition zero_row : row := {| E_elas := 0; E_kin := 0; E_damp := 0; E_tot := 0 |}.

(** [0.5*stiffness(u_sol, u_sol)] in the linear run, [energy_nonlinear(u_sol)]
    otherwise; [energy_nonlinear] is the assembled stored energy of the
    library, a scalar function of the displacement array. *)
Definition elastic (pd : problem_data) (p : Explicit.parameters)
    (energy_nonlinear : vector -> Qc) (u : vector) : Qc :=
  if Explicit.use_linear_model p
  then 1 / Material.two * Explicit.stiffness pd p u u
  else energy_nonlinear u.

(** [0.5*mass(v_sol, v_sol)] *)
Definition kinetic (pd : problem_data) (v : vector) : Qc :=
  1 / Material.two * mass pd v v.

(** The rows written by the iterations, given the value of [E_damp] before
    them: [E_damp += dt*damping(v_sol, v_sol)],
    [E_tot = E_elas+E_kin+E_damp]. *)
Fixpoint accumulate (pd : problem_data) (p : Explicit.parameters)
    (energy_nonlinear : vector -> Qc) (h : Qc) (E_damp0 : Qc)
    (tr : list (Qc * Explicit.state)) : list row :=
  match tr with
  | [] => []
  | (_, s) :: tr' =>
      let e_elas := elastic pd p energy_nonlinear (Explicit.u_sol s) in
      let e_kin := kinetic pd (Explicit.v_sol s) in
      let e_damp :=
        E_damp0 + h * Explicit.damping pd p (Explicit.v_sol s) (Explicit.v_sol s) in
      {| E_elas := e_elas; E_kin := e_kin; E_damp := e_damp;
         E_tot := e_elas + e_kin + e_damp |}
      :: accumulate pd p energy_nonlinear h e_damp tr'
  end.

(** [energies = np.zeros((num_steps+1, 4))], then row [n+1] is written by
    iteration [n]. *)
Definition energies (solve : form2 -> form1 -> vector) (pd : problem_data)
    (p : Explicit.parameters) (energy_nonlinear : vector -> Qc)
    : option (list row) :=
  match Explicit.dt p, Explicit.run solve pd p with
  | Some h, Some tr => Some (zero_row :: accumulate pd p energy_nonlinear h 0 tr)
  | _, _ => None
  end.

End Energy.

(* ================================================================= *)
(** ** Changing the peak load; total of an array *)

Module Scaling.



(** The sum of the entries of an array. *)
Definition total (x : vector) : Qc := fold_right Qcplus 0 x.

End Scaling.

(* ================================================================= *)
(** ** A discrete energy of the explicit scheme

    The kinetic energy taken with the lumped mass, the elastic energy of the
    linear model, and a cross term of the order of the time step. *)

Module Shadow.


End Shadow.

(* ================================================================= *)
(** ** More instances for the bar *)

Module Examples.

(** The explicit run of the bar without damping: [eta_m = eta_k = 0]. *)
Definition undamped_parameters (linear lumped : bool) (t_end : Qc) (steps : nat)
    : Explicit.parameters :=
  {| Explicit.use_linear_model := linear;
     Explicit.use_lumped_mass := lumped;
     Explicit.eta_m := 0;
     Explicit.eta_k := 0;
     Explicit.t_end := t_end;
     Explicit.num_steps := steps;
     Explicit.t_cutoff := Bar.two;
     Explicit.sigma_max := 1 |}.

(** A stored energy for the hardening spring of the bar: quadratic plus
    quartic in the response of the springs. *)
Definition hardening_energy (u : vector) : Qc :=
  Scaling.total
    (map (fun r => 1 / Bar.two * (r * r) + 1 / (Bar.two * Bar.two) * (r * r * r * r))
         (matvec Bar.springs u)).

(** The bar without mass: every row sum of the mass matrix is zero. *)
Definition massless : problem_data :=
  {| ndofs := 4;
     rho := 0;
     inner_dx := inner_dx Bar.consistent;
     elasticity_dx := Bar.springs;
     piola_dx := Bar.hardening;
     ds2_x := [ 0; 0; 1; 0 ];
     ds2_y := [ 0; 0; 0; 1 ];
     boundary_clamped_dofs := [ 0%nat ] |}.

End Examples.

(* ================================================================= *)
(** * Properties *)

(** ** Arrays *)

Section VecFacts.

Lemma Qc_eqb_true (a b : Qc) : Qc_eqb a b = true <-> a = b.
Proof.
  unfold Qc_eqb. rewrite Qeq_bool_iff. split.
  - apply Qc_is_canon.
  - intros ->. reflexivity.
Qed.

Lemma Qc_eqb_false (a b : Qc) : Qc_eqb a b = false <-> a <> b.
Proof.
  rewrite <- Qc_eqb_true. destruct (Qc_eqb a b); split; congruence.
Qed.

Lemma veqb_true (x y : vector) : veqb x y = true -> x = y.
Proof.
  revert y. induction x as [|a x IH]; intros [|b y]; simpl; try congruence.
  intros H. apply andb_true_iff in H as [Hab Hxy].
  apply Qc_eqb_true in Hab. f_equal; auto.
Qed.

Lemma length_full n c : length (full n c) = n.
Proof. apply repeat_length. Qed.

Lemma nth_full n c i : (i < n)%nat -> nth i (full n c) 0 = c.
Proof. intros Hi. unfold full. apply nth_repeat_lt. exact Hi. Qed.

Lemma nth_full_0 n i : nth i (full n 0) 0 = 0.
Proof.
  unfold full. revert i. induction n as [|n IH]; intros [|i]; simpl; auto.
Qed.

Lemma length_zip_with f x y :
  length (zip_with f x y) = Nat.min (length x) (length y).
Proof.
  revert y. induction x as [|a x IH]; intros [|b y]; simpl; auto.
Qed.

Lemma nth_zip_with f x y i :
  (i < length x)%nat -> (i < length y)%nat ->
  nth i (zip_with f x y) 0 = f (nth i x 0) (nth i y 0).
Proof.
  revert y i. induction x as [|a x IH]; intros [|b y] [|i]; simpl; intros; try lia; auto.
  apply IH; lia.
Qed.

Lemma length_vscale c x : length (vscale c x) = length x.
Proof. apply length_map. Qed.

Lemma nth_vscale c x i : nth i (vscale c x) 0 = c * nth i x 0.
Proof.
  unfold vscale. revert i. induction x as [|a x IH]; intros [|i]; simpl; auto; ring.
Qed.

Lemma length_axpy y c x :
  length x = length y -> length (axpy y c x) = length y.
Proof.
  intros H. unfold axpy, vadd. rewrite length_zip_with, length_vscale. lia.
Qed.

Lemma nth_axpy y c x i :
  length x = length y -> (i < length y)%nat ->
  nth i (axpy y c x) 0 = nth i y 0 + c * nth i x 0.
Proof.
  intros H Hi. unfold axpy, vadd.
  rewrite nth_zip_with, nth_vscale; auto. rewrite length_vscale. lia.
Qed.

Lemma vec_ext (x y : vector) :
  length x = length y ->
  (forall i, (i < length x)%nat -> nth i x 0 = nth i y 0) -> x = y.
Proof.
  intros Hl H. apply nth_ext with (d := 0) (d' := 0); auto.
Qed.

Lemma dot_nil_r x : dot x [] = 0.
Proof. destruct x; reflexivity. Qed.

Lemma dot_full_0_r x n : dot x (full n 0) = 0.
Proof.
  unfold full. revert n. induction x as [|a x IH]; intros [|n]; simpl; auto.
  rewrite IH. ring.
Qed.

Lemma dot_full_0_l x n : dot (full n 0) x = 0.
Proof.
  unfold full. revert x. induction n as [|n IH]; intros [|b x]; simpl; auto.
  rewrite IH. ring.
Qed.

Lemma dot_vscale_l c x z : dot (vscale c x) z = c * dot x z.
Proof.
  unfold vscale. revert z. induction x as [|a x IH]; intros [|b z]; simpl; try ring.
  rewrite IH. ring.
Qed.

Lemma dot_vscale_r c r x : dot r (vscale c x) = c * dot r x.
Proof.
  unfold vscale. revert x. induction r as [|a r IH]; intros [|b x]; simpl; try ring.
  rewrite IH. ring.
Qed.

Lemma dot_vadd_l x y z :
  length x = length y -> dot (vadd x y) z = dot x z + dot y z.
Proof.
  unfold vadd. revert y z. induction x as [|a x IH]; intros [|b y] [|c z]; simpl;
    intros H; try discriminate; try ring.
  rewrite IH by lia. ring.
Qed.

Lemma dot_vadd_r r x y :
  length x = length y -> dot r (vadd x y) = dot r x + dot r y.
Proof.
  unfold vadd. revert x y. induction r as [|a r IH]; intros [|b x] [|c y]; simpl;
    intros H; try discriminate; try ring.
  rewrite IH by lia. ring.
Qed.

Lemma length_matvec A x : length (matvec A x) = length A.
Proof. apply length_map. Qed.

Lemma matvec_vscale A c x : matvec A (vscale c x) = vscale c (matvec A x).
Proof.
  unfold matvec, vscale. rewrite map_map. apply map_ext.
  intros r. apply dot_vscale_r.
Qed.

Lemma matvec_vadd A x y :
  length x = length y -> matvec A (vadd x y) = vadd (matvec A x) (matvec A y).
Proof.
  intros H. induction A as [|r A IH]; simpl; auto.
  unfold vadd in *. simpl. rewrite <- IH. f_equal. apply dot_vadd_r. exact H.
Qed.

Lemma matvec_full_0 A n : matvec A (full n 0) = full (length A) 0.
Proof.
  induction A as [|r A IH]; simpl; auto.
  rewrite dot_full_0_r. unfold full in *. simpl. f_equal. exact IH.
Qed.

Lemma matvec_axpy A y c x :
  length x = length y ->
  matvec A (axpy y c x) = axpy (matvec A y) c (matvec A x).
Proof.
  intros H. unfold axpy. rewrite matvec_vadd, matvec_vscale; auto.
  rewrite length_vscale. auto.
Qed.

Lemma dot_axpy_l y c x z :
  length x = length y -> dot (axpy y c x) z = dot y z + c * dot x z.
Proof.
  intros H. unfold axpy. rewrite dot_vadd_l, dot_vscale_l; auto.
  rewrite length_vscale. auto.
Qed.

Lemma length_basis n i : length (basis n i) = n.
Proof. unfold basis. rewrite length_map, length_seq. reflexivity. Qed.

Lemma dot_indicator x i k n :
  dot x (map (fun j => if Nat.eqb j i then 1 else 0) (seq k n))
  = if (Nat.leb k i && Nat.ltb i (k + n))%bool then nth (i - k) x 0 else 0.
Proof.
  revert x k. induction n as [|n IH]; intros x k.
  - simpl. rewrite dot_nil_r.
    destruct (Nat.leb_spec k i), (Nat.ltb_spec i (k + 0)); simpl; auto; lia.
  - destruct x as [|a x].
    + simpl. destruct (_ && _)%bool; auto. destruct (i - k)%nat; reflexivity.
    + simpl. rewrite IH.
      destruct (Nat.eqb_spec k i) as [->|Hne].
      * replace (i - i)%nat with 0%nat by lia.
        destruct (Nat.leb_spec (S i) i); try lia.
        destruct (Nat.leb_spec i i); try lia.
        destruct (Nat.ltb_spec i (i + S n)); try lia. simpl. ring.
      * destruct (Nat.leb_spec (S k) i), (Nat.leb_spec k i),
          (Nat.ltb_spec i (S k + n)), (Nat.ltb_spec i (k + S n));
          simpl; try lia; try ring.
        replace (i - k)%nat with (S (i - S k)) by lia. simpl. ring.
Qed.

Lemma dot_basis x n i : (i < n)%nat -> dot x (basis n i) = nth i x 0.
Proof.
  intros Hi. unfold basis. rewrite dot_indicator.
  destruct (Nat.ltb_spec i (0 + n)); try lia. simpl.
  rewrite Nat.sub_0_r. reflexivity.
Qed.

End VecFacts.

(** ** Forms, assembly, boundary conditions, load, loop *)

Section FEFacts.

Variable pd : problem_data.

Lemma length_assemble_vector L : length (assemble_vector pd L) = ndofs pd.
Proof. unfold assemble_vector. rewrite length_map, length_seq. reflexivity. Qed.

Lemma nth_assemble_vector L i :
  (i < ndofs pd)%nat ->
  nth i (assemble_vector pd L) 0 = L (basis (ndofs pd) i).
Proof.
  intros Hi. unfold assemble_vector.
  rewrite nth_indep with (d' := L (basis (ndofs pd) 0%nat))
    by (rewrite length_map, length_seq; exact Hi).
  rewrite map_nth with (d := 0%nat). rewrite seq_nth by exact Hi. reflexivity.
Qed.

Lemma assemble_vector_dot x :
  length x = ndofs pd -> assemble_vector pd (fun z => dot x z) = x.
Proof.
  intros Hx. apply vec_ext.
  - rewrite length_assemble_vector. auto.
  - intros i Hi. rewrite length_assemble_vector in Hi.
    rewrite nth_assemble_vector by exact Hi. apply dot_basis. exact Hi.
Qed.

Lemma prescribed_bc i : prescribed (bc pd) i = 0.
Proof. unfold prescribed, bc, dirichletbc, u_D. simpl. destruct (Nat.even i); reflexivity. Qed.

Lemma length_set_bc_from b k x : length (set_bc_from b k x) = length x.
Proof. revert k. induction x as [|a x IH]; intros k; simpl; auto. Qed.

Lemma length_set_bc b x : length (set_bc b x) = length x.
Proof. apply length_set_bc_from. Qed.

Lemma nth_set_bc_from b k x i :
  (i < length x)%nat ->
  nth i (set_bc_from b k x) 0
  = if is_constrained b (k + i) then prescribed b (k + i) else nth i x 0.
Proof.
  revert k i. induction x as [|a x IH]; intros k [|i] Hi; simpl in *; try lia.
  - rewrite Nat.add_0_r. reflexivity.
  - rewrite IH by lia. replace (S k + i)%nat with (k + S i)%nat by lia. reflexivity.
Qed.

Lemma nth_set_bc b x i :
  (i < length x)%nat ->
  nth i (set_bc b x) 0
  = if is_constrained b i then prescribed b i else nth i x 0.
Proof. intros Hi. unfold set_bc. rewrite nth_set_bc_from by exact Hi. reflexivity. Qed.

Lemma set_bc_satisfies x : satisfies_bc pd (set_bc (bc pd) x).
Proof.
  intros i Hi Hc. rewrite length_set_bc in Hi.
  rewrite nth_set_bc by exact Hi. rewrite Hc. reflexivity.
Qed.

Lemma set_bc_fixed x : satisfies_bc pd x -> set_bc (bc pd) x = x.
Proof.
  intros H. apply vec_ext.
  - apply length_set_bc.
  - intros i Hi. rewrite length_set_bc in Hi. rewrite nth_set_bc by exact Hi.
    destruct (is_constrained (bc pd) i) eqn:Hc; auto. symmetry. apply H; auto.
Qed.

Lemma satisfies_bc_full_0 n : satisfies_bc pd (full n 0).
Proof. intros i _ _. rewrite nth_full_0, prescribed_bc. reflexivity. Qed.

Lemma satisfies_bc_axpy y c x :
  length x = length y -> satisfies_bc pd y -> satisfies_bc pd x ->
  satisfies_bc pd (axpy y c x).
Proof.
  intros Hl Hy Hx i Hi Hc. rewrite length_axpy in Hi by exact Hl.
  rewrite nth_axpy by assumption.
  rewrite Hy, Hx by (auto; lia). rewrite prescribed_bc. ring.
Qed.

Lemma solves_satisfies_bc a L x : solves pd a L x -> satisfies_bc pd x.
Proof.
  intros [Hl H] i Hi Hc. rewrite Hl in Hi. specialize (H i Hi).
  rewrite Hc in H. exact H.
Qed.

(** The bilinear forms are linear in their first argument. *)

Lemma stiffness_linear_axpy y c x z :
  length x = length y ->
  stiffness_linear pd (axpy y c x) z
  = stiffness_linear pd y z + c * stiffness_linear pd x z.
Proof.
  intros H. unfold stiffness_linear.
  rewrite matvec_axpy by exact H. apply dot_axpy_l.
  rewrite !length_matvec. reflexivity.
Qed.

Lemma mass_axpy y c x z :
  length x = length y ->
  mass pd (axpy y c x) z = mass pd y z + c * mass pd x z.
Proof.
  intros H. unfold mass.
  rewrite matvec_axpy by exact H. rewrite dot_axpy_l.
  - ring.
  - rewrite !length_matvec. reflexivity.
Qed.

Lemma damping_axpy em ek y c x z :
  length x = length y ->
  damping pd em ek (axpy y c x) z
  = damping pd em ek y z + c * damping pd em ek x z.
Proof.
  intros H. unfold damping.
  rewrite mass_axpy, stiffness_linear_axpy by exact H. ring.
Qed.

Lemma stiffness_linear_0 n z : stiffness_linear pd (full n 0) z = 0.
Proof. unfold stiffness_linear. rewrite matvec_full_0. apply dot_full_0_l. Qed.

Lemma mass_0 n z : mass pd (full n 0) z = 0.
Proof. unfold mass. rewrite matvec_full_0, dot_full_0_l. ring. Qed.

Lemma damping_0 em ek n z : damping pd em ek (full n 0) z = 0.
Proof. unfold damping. rewrite mass_0, stiffness_linear_0. ring. Qed.

Lemma p_ext_0 z : p_ext pd (0, 0) z = 0.
Proof. unfold p_ext. simpl. ring. Qed.

End FEFacts.

Section LoadFacts.

Variables sigma_max t_cutoff : Qc.

Lemma load_eval_ramp t :
  t_cutoff <> 0 -> t <= t_cutoff ->
  load_eval sigma_max t_cutoff t = Some (sigma_max * t / t_cutoff).
Proof.
  intros Hc Ht. unfold load_eval.
  assert (Hle : Qle_bool t t_cutoff = true) by (apply Qle_bool_iff; exact Ht).
  rewrite Hle. apply Qc_eqb_false in Hc. rewrite Hc. reflexivity.
Qed.

Lemma load_eval_after t :
  t_cutoff < t -> load_eval sigma_max t_cutoff t = Some 0.
Proof.
  intros Ht. unfold load_eval.
  destruct (Qle_bool t t_cutoff) eqn:Hle; auto.
  apply Qle_bool_iff in Hle. exfalso. apply (Qlt_not_le _ _ Ht). exact Hle.
Qed.

Lemma load_eval_defined t :
  t_cutoff <> 0 -> exists sigma, load_eval sigma_max t_cutoff t = Some sigma.
Proof.
  intros Hc. unfold load_eval. apply Qc_eqb_false in Hc. rewrite Hc.
  destruct (Qle_bool t t_cutoff); eauto.
Qed.

Lemma load_eval_0 t sigma :
  sigma_max = 0 -> load_eval sigma_max t_cutoff t = Some sigma -> sigma = 0.
Proof.
  intros -> H. unfold load_eval in H.
  destruct (Qle_bool t t_cutoff); [destruct (Qc_eqb t_cutoff 0)|];
    inversion H; unfold Qcdiv; ring.
Qed.

End LoadFacts.

Section LoopFacts.

Context {S : Type}.
Variable step : nat -> S -> option S.
Variable h : Qc.

Lemma time_loop_labels ns s tr :
  time_loop step h ns s = Some tr ->
  map fst tr = map (fun n => Qc_of_nat (n + 1) * h) ns.
Proof.
  revert s tr. induction ns as [|n ns IH]; intros s tr H; simpl in H.
  - inversion H. reflexivity.
  - destruct (step n s) as [s'|]; try discriminate.
    destruct (time_loop step h ns s') as [tr'|] eqn:E; try discriminate.
    inversion H; subst. simpl. f_equal. eapply IH; eauto.
Qed.

Lemma time_loop_length ns s tr :
  time_loop step h ns s = Some tr -> length tr = length ns.
Proof.
  intros H. apply time_loop_labels in H.
  rewrite <- (length_map fst), H, length_map. reflexivity.
Qed.

Variable Inv : S -> Prop.

Lemma time_loop_invariant ns s tr :
  (forall n s s', Inv s -> step n s = Some s' -> Inv s') ->
  Inv s -> time_loop step h ns s = Some tr ->
  Forall (fun ts => Inv (snd ts)) tr.
Proof.
  intros Hstep. revert s tr. induction ns as [|n ns IH]; intros s tr Hs H; simpl in H.
  - inversion H. constructor.
  - destruct (step n s) as [s'|] eqn:Es; try discriminate.
    destruct (time_loop step h ns s') as [tr'|] eqn:E; try discriminate.
    inversion H; subst. constructor.
    + simpl. exact (Hstep n s s' Hs Es).
    + apply (IH s'); [exact (Hstep n s s' Hs Es) | exact E].
Qed.

End LoopFacts.

(** ** The load schedule *)

(** Comparisons of binary64 numbers, from their specification. *)
Lemma SFcompare_antisym (a b : SpecFloat.spec_float) (c : comparison) :
  SpecFloat.SFcompare a b = Some c -> SpecFloat.SFcompare b a = Some (CompOpp c).
Proof.
  destruct a as [sa|sa| |sa ma ea], b as [sb|sb| |sb mb eb]; simpl;
    try discriminate;
    try (intros H; inversion H; subst; clear H;
         repeat match goal with s : bool |- _ => destruct s end; reflexivity).
  intros H; inversion H; subst; clear H. f_equal.
  rewrite (Z.compare_antisym ea eb).
  destruct sa, sb; try reflexivity;
    destruct (ea ?= eb)%Z; simpl; try reflexivity.
  all: change PosDef.Pos.compare_cont with Pos.compare_cont.
  all: rewrite (Pos.compare_cont_antisym ma mb Eq); reflexivity.
Qed.

Lemma float_ltb_not_leb (x y : PrimFloat.float) :
  PrimFloat.ltb y x = true -> PrimFloat.leb x y = false.
Proof.
  rewrite FloatAxioms.ltb_spec, FloatAxioms.leb_spec.
  unfold SpecFloat.SFltb, SpecFloat.SFleb.
  destruct (SpecFloat.SFcompare (FloatOps.Prim2SF y) (FloatOps.Prim2SF x))
    as [c|] eqn:E; try discriminate.
  rewrite (SFcompare_antisym _ _ _ E). destruct c; try discriminate. reflexivity.
Qed.

Lemma float_positive_not_zero (x : PrimFloat.float) :
  PrimFloat.ltb 0%float x = true -> PrimFloat.eqb x 0%float = false.
Proof.
  rewrite FloatAxioms.ltb_spec, FloatAxioms.eqb_spec.
  unfold SpecFloat.SFltb, SpecFloat.SFeqb.
  destruct (SpecFloat.SFcompare (FloatOps.Prim2SF 0%float) (FloatOps.Prim2SF x))
    as [c|] eqn:E; try discriminate.
  rewrite (SFcompare_antisym _ _ _ E). destruct c; try discriminate. reflexivity.
Qed.

(** C4, as the code has it.  A call of [load_eval] changes no global of the
    notebook; its value is the one below for the [sigma_max] (and, in the
    explicit notebook, the [t_cutoff]) that the notebook holds at the call.
    On the binary64 numbers, for a cut-off [t_cutoff > 0]: when
    [t <= t_cutoff] it returns the rounded quotient by [t_cutoff] of the
    rounded product [sigma_max*t], when [t > t_cutoff] it returns [0], and
    the function of the Newmark notebook called with the cut-off of the
    notebook is the function of the explicit notebook.  In exact arithmetic
    the value on the ramp is [sigma_max*t/t_cutoff], which is [sigma_max] at
    [t = t_cutoff]. *)
Theorem load_eval_schedule (g : Binary64.globals) (t : PrimFloat.float)
    (sigma_max t_cutoff : Qc) :
  PrimFloat.ltb 0%float (Binary64.t_cutoff g) = true ->
  0 < t_cutoff ->
  snd (Binary64.load_eval t g) = g
  /\ snd (Binary64.load_eval_newmark t (Binary64.t_cutoff g) g) = g
  /\ (PrimFloat.leb t (Binary64.t_cutoff g) = true ->
        fst (Binary64.load_eval t g)
        = Some (PrimFloat.div (PrimFloat.mul (Binary64.sigma_max g) t)
                              (Binary64.t_cutoff g)))
  /\ (PrimFloat.ltb (Binary64.t_cutoff g) t = true ->
        fst (Binary64.load_eval t g) = Some 0%float)
  /\ Binary64.load_eval_newmark t (Binary64.t_cutoff g) g = Binary64.load_eval t g
  /\ (forall t' : Qc, t' <= t_cutoff ->
        load_eval sigma_max t_cutoff t' = Some (sigma_max * t' / t_cutoff))
  /\ load_eval sigma_max t_cutoff t_cutoff = Some sigma_max
  /\ (forall t' : Qc, t_cutoff < t' -> load_eval sigma_max t_cutoff t' = Some 0).
Proof.
  intros Hfpos Hpos.
  assert (Hne : t_cutoff <> 0).
  { intros E. symmetry in E. exact (Qclt_not_eq _ _ Hpos E). }
  pose proof (float_positive_not_zero _ Hfpos) as Hfne.
  split; [reflexivity|]. split; [reflexivity|].
  split; [|split; [|split; [|split; [|split]]]].
  - intros Ht. unfold Binary64.load_eval. cbn [fst]. rewrite Ht, Hfne. reflexivity.
  - intros Ht. unfold Binary64.load_eval. cbn [fst].
    rewrite (float_ltb_not_leb _ _ Ht). reflexivity.
  - reflexivity.
  - intros t' Ht. apply load_eval_ramp; assumption.
  - rewrite load_eval_ramp by (auto; apply Qcle_refl).
    f_equal. field. exact Hne.
  - intros t'. apply load_eval_after.
Qed.

Lemma load_eval_schedule_witness :
  let g := {| Binary64.sigma_max := 1%float; Binary64.t_cutoff := 2%float |} in
  Binary64.load_eval 1%float g
  = (Some (PrimFloat.div (PrimFloat.mul 1%float 1%float) 2%float), g)
  /\ Binary64.load_eval (PrimFloat.add 2%float 1%float) g = (Some 0%float, g)
  /\ load_eval 1 Bar.two 1 = Some (1 * 1 / Bar.two)
  /\ load_eval 1 Bar.two Bar.two = Some 1
  /\ load_eval 1 Bar.two (Bar.two + 1) = Some 0.
Proof.
  intros g.
  assert (Hfpos : PrimFloat.ltb 0%float (Binary64.t_cutoff g) = true)
    by reflexivity.
  assert (Hpos : 0 < Bar.two) by reflexivity.
  destruct (load_eval_schedule g 1%float 1 Bar.two Hfpos Hpos)
    as [G1 [_ [F1 [_ [_ [E1 [E2 E3]]]]]]].
  destruct (load_eval_schedule g (PrimFloat.add 2%float 1%float) 1 Bar.two Hfpos Hpos)
    as [G2 [_ [_ [F2 _]]]].
  split; [|split; [|split; [|split]]].
  - rewrite (surjective_pairing (Binary64.load_eval 1%float g)).
    rewrite G1, F1 by reflexivity. reflexivity.
  - rewrite (surjective_pairing (Binary64.load_eval (PrimFloat.add 2%float 1%float) g)).
    rewrite G2, F2 by reflexivity. reflexivity.
  - apply E1. apply Qle_bool_imp_le. reflexivity.
  - exact E2.
  - apply E3. reflexivity.
Defined.

(** C4, as stated, fails on the numbers of the machine.  With the peak
    [0.05] and the cut-off [0.1] (the binary64 numbers nearest to 5/100 and
    1/10, as Python reads the literals) the value at [t = t_cutoff] is not
    [sigma_max] but the next number above it.  And the value is not a
    function of the time and of the cut-off alone: another [sigma_max] in the
    notebook gives another value for the same arguments. *)
Lemma load_eval_not_sigma_max_at_cutoff :
  let sigma := PrimFloat.div 5%float 100%float in
  let t_c := PrimFloat.div 1%float 10%float in
  let g := {| Binary64.sigma_max := sigma; Binary64.t_cutoff := t_c |} in
  let g' := {| Binary64.sigma_max := 1%float; Binary64.t_cutoff := t_c |} in
  PrimFloat.ltb 0%float t_c = true
  /\ (exists r,
        fst (Binary64.load_eval t_c g) = Some r
        /\ fst (Binary64.load_eval_newmark t_c t_c g) = Some r
        /\ r <> sigma
        /\ PrimFloat.ltb sigma r = true
        /\ r = PrimFloat.next_up sigma)
  /\ fst (Binary64.load_eval_newmark t_c t_c g)
     <> fst (Binary64.load_eval_newmark t_c t_c g').
Proof.
  intros sigma t_c g g'. split; [reflexivity|]. split.
  - eexists. split; [vm_compute; reflexivity|]. split; [vm_compute; reflexivity|].
    split; [|split].
    + intros E. apply (f_equal (PrimFloat.ltb sigma)) in E. vm_compute in E.
      discriminate E.
    + vm_compute. reflexivity.
    + vm_compute. reflexivity.
  - intros E.
    apply (f_equal (fun o => match o with
                             | Some r => PrimFloat.ltb r 1%float
                             | None => false
                             end)) in E.
    vm_compute in E. discriminate E.
Qed.

(** ** Rayleigh damping *)

Lemma assemble_vector_combination pd (a b : Qc) (L1 L2 : form1) :
  assemble_vector pd (fun z => a * L1 z + b * L2 z)
  = vadd (vscale a (assemble_vector pd L1)) (vscale b (assemble_vector pd L2)).
Proof.
  apply vec_ext.
  - unfold vadd. rewrite length_zip_with, !length_vscale, !length_assemble_vector. lia.
  - intros i Hi. rewrite length_assemble_vector in Hi. unfold vadd.
    rewrite nth_zip_with
      by (rewrite length_vscale, length_assemble_vector; exact Hi).
    rewrite !nth_vscale. rewrite !nth_assemble_vector by exact Hi. reflexivity.
Qed.

(** C8, as the code has it.  The damping form is [eta_m] times the mass form
    plus [eta_k] times the linear stiffness form, for all arguments and
    whatever model the run uses; so is the assembled damping response; and
    the linear stiffness is the stiffness of the run when the run is linear. *)
Theorem damping_rayleigh_linear (pd : problem_data) (p : Explicit.parameters)
    (w z : vector) :
  Explicit.damping pd p w z
  = Explicit.eta_m p * mass pd w z + Explicit.eta_k p * stiffness_linear pd w z
  /\ assemble_vector pd (Explicit.damping pd p w)
     = vadd (vscale (Explicit.eta_m p) (assemble_vector pd (mass pd w)))
            (vscale (Explicit.eta_k p) (assemble_vector pd (stiffness_linear pd w)))
  /\ (Explicit.use_linear_model p = true ->
      Explicit.damping pd p w z
      = Explicit.eta_m p * mass pd w z
        + Explicit.eta_k p * Explicit.stiffness pd p w z).
Proof.
  split; [reflexivity|]. split.
  - unfold Explicit.damping, damping.
    apply (assemble_vector_combination pd (Explicit.eta_m p) (Explicit.eta_k p)
             (mass pd w) (stiffness_linear pd w)).
  - intros Hlin. unfold Explicit.stiffness. rewrite Hlin. reflexivity.
Qed.

Lemma damping_rayleigh_linear_witness :
  let pd := Bar.consistent in
  let p := Bar.explicit_parameters true true Bar.two 2 in
  let w := [0; 0; 1; 0] in
  Explicit.damping pd p w w
  = Explicit.eta_m p * mass pd w w + Explicit.eta_k p * Explicit.stiffness pd p w w.
Proof.
  intros pd p w.
  destruct (damping_rayleigh_linear pd p w w) as [_ [_ H]].
  apply H. reflexivity.
Defined.

(** C8, as stated, fails in the nonlinear run: the damping form keeps the
    linear stiffness while the stiffness of the run is the nonlinear one. *)
Lemma damping_not_stiffness_of_run :
  let pd := Bar.diagonal in
  let p := Bar.explicit_parameters false true 1 1 in
  let w := [0; 0; 1; 0] in
  Explicit.damping pd p w w
  <> Explicit.eta_m p * mass pd w w + Explicit.eta_k p * Explicit.stiffness pd p w w.
Proof.
  intros pd p w H. apply (f_equal this) in H. vm_compute in H. discriminate H.
Qed.

(** ** The inverse of the lumped mass *)

Lemma reciprocal_some a : a <> 0 -> Explicit.reciprocal a = Some (1 / a).
Proof.
  intros H. unfold Explicit.reciprocal. apply Qc_eqb_false in H. rewrite H. reflexivity.
Qed.

Lemma reciprocals_some x :
  (forall i, (i < length x)%nat -> nth i x 0 <> 0) ->
  exists r, Explicit.reciprocals x = Some r /\ length r = length x
            /\ forall i, (i < length x)%nat -> nth i r 0 = 1 / nth i x 0.
Proof.
  induction x as [|a x IH]; intros H.
  - exists []. simpl. repeat split; auto. intros i Hi. lia.
  - destruct IH as [r [Er [Hl Hr]]].
    { intros i Hi. apply (H (S i)). simpl. lia. }
    exists (1 / a :: r). simpl. rewrite reciprocal_some, Er.
    + repeat split; auto. intros [|i] Hi; auto. apply Hr. lia.
    + apply (H 0%nat). simpl. lia.
Qed.

Lemma reciprocals_none x i :
  (i < length x)%nat -> nth i x 0 = 0 -> Explicit.reciprocals x = None.
Proof.
  revert i. induction x as [|a x IH]; intros [|i] Hi H; simpl in *; try lia.
  - subst a. reflexivity.
  - rewrite (IH i) by (auto; lia). destruct (Explicit.reciprocal a); reflexivity.
Qed.

Lemma reciprocals_inverse x r i :
  Explicit.reciprocals x = Some r -> (i < length x)%nat ->
  nth i r 0 * nth i x 0 = 1.
Proof.
  revert r i. induction x as [|a x IH]; intros r i H Hi; simpl in *; [lia|].
  unfold Explicit.reciprocal in H.
  destruct (Qc_eqb a 0) eqn:Ea; [discriminate|].
  destruct (Explicit.reciprocals x) as [rs|] eqn:Er; [|discriminate].
  inversion H; subst r; clear H. apply Qc_eqb_false in Ea.
  destruct i as [|i]; simpl.
  - field. exact Ea.
  - apply (IH rs i eq_refl). lia.
Qed.

Lemma nth_M_lumped pd i :
  (i < ndofs pd)%nat ->
  nth i (Explicit.M_lumped pd) 0
  = mass pd (full (ndofs pd) 1) (basis (ndofs pd) i).
Proof. intros Hi. unfold Explicit.M_lumped. apply nth_assemble_vector. exact Hi. Qed.

Lemma length_M_lumped pd : length (Explicit.M_lumped pd) = ndofs pd.
Proof. apply length_assemble_vector. Qed.

Lemma M_lumped_inv_some pd :
  (forall i, (i < ndofs pd)%nat ->
             mass pd (full (ndofs pd) 1) (basis (ndofs pd) i) <> 0) ->
  exists minv,
    Explicit.M_lumped_inv pd = Some minv
    /\ length minv = ndofs pd
    /\ forall i, (i < ndofs pd)%nat ->
         nth i minv 0 = 1 / mass pd (full (ndofs pd) 1) (basis (ndofs pd) i).
Proof.
  intros Hnz.
  destruct (reciprocals_some (Explicit.M_lumped pd)) as [minv [E [Hl Hr]]].
  { intros i Hi. rewrite length_M_lumped in Hi. rewrite nth_M_lumped by exact Hi.
    apply Hnz. exact Hi. }
  rewrite length_M_lumped in Hl, Hr.
  exists minv. unfold Explicit.M_lumped_inv. repeat split; auto.
  intros i Hi. rewrite Hr, nth_M_lumped by exact Hi. reflexivity.
Qed.

(** C10. The inverse lumped mass is the entrywise [1/x] of the row sums of
    the mass matrix, without a guard: when every row sum is nonzero it is
    defined, each entry is the inverse of its row sum, and the lumped
    acceleration update returns a state whenever the load is defined; a zero
    row sum leaves it undefined. *)
Theorem lumped_inverse_defined (solve : form2 -> form1 -> vector)
    (pd : problem_data) :
  ((forall i, (i < ndofs pd)%nat -> mass pd (full (ndofs pd) 1) (basis (ndofs pd) i) <> 0) ->
   exists minv,
     Explicit.M_lumped_inv pd = Some minv
     /\ length minv = ndofs pd
     /\ (forall i, (i < ndofs pd)%nat ->
           nth i minv 0 = 1 / mass pd (full (ndofs pd) 1) (basis (ndofs pd) i)
           /\ nth i minv 0 * mass pd (full (ndofs pd) 1) (basis (ndofs pd) i) = 1)
     /\ (forall p h n s sigma,
           Explicit.use_lumped_mass p = true ->
           load_eval (Explicit.sigma_max p) (Explicit.t_cutoff p) (Qc_of_nat (n + 1) * h)
             = Some sigma ->
           exists s',
             Explicit.update_acceleration solve pd p (Explicit.M_lumped_inv pd) h n s
               = Some s'
             /\ Explicit.a_sol s'
                = set_bc (bc pd)
                    (multiply minv
                       (assemble_vector pd
                          (Explicit.f_load pd p (sigma, 0)
                             (Explicit.u_sol s) (Explicit.v_sol s))))))
  /\ (forall i, (i < ndofs pd)%nat ->
        mass pd (full (ndofs pd) 1) (basis (ndofs pd) i) = 0 ->
        Explicit.M_lumped_inv pd = None).
Proof.
  split.
  - intros Hnz.
    destruct (M_lumped_inv_some pd Hnz) as [minv [E [Hl Hr]]].
    exists minv. repeat split; auto.
    + rewrite Hr by exact H. field. apply Hnz. exact H.
    + intros p h n s sigma Hl' Hs. unfold Explicit.update_acceleration.
      rewrite Hs, Hl', E. eexists. split; reflexivity.
  - intros i Hi Hz. unfold Explicit.M_lumped_inv.
    apply reciprocals_none with (i := i).
    + rewrite length_M_lumped. exact Hi.
    + rewrite nth_M_lumped by exact Hi. exact Hz.
Qed.

Lemma bar_consistent_row_sums i :
  (i < ndofs Bar.consistent)%nat ->
  mass Bar.consistent (full (ndofs Bar.consistent) 1)
       (basis (ndofs Bar.consistent) i) <> 0.
Proof.
  intros Hi H. apply (f_equal this) in H.
  do 4 (destruct i as [|i]; [vm_compute in H; discriminate H|]).
  simpl in Hi. lia.
Qed.

Lemma lumped_inverse_defined_witness :
  exists minv,
    Explicit.M_lumped_inv Bar.consistent = Some minv /\ length minv = 4%nat.
Proof.
  destruct (lumped_inverse_defined (uncoupled_solve Bar.consistent) Bar.consistent)
    as [H _].
  destruct (H bar_consistent_row_sums) as [minv [E [Hl _]]].
  exists minv. split; assumption.
Defined.

(** ** Newmark-beta: consistency of predictor, solve and corrector *)

Section NewmarkConsistency.

Variable pd : problem_data.
Variable p : Newmark.parameters.
Variable h : Qc.

(** At every test function where the effective equation holds, the
    corrected state satisfies the equation of motion. *)
Lemma newmark_consistent_at (u_hat v_hat acc z : vector) (traction : Qc * Qc) :
  length acc = length u_hat -> length acc = length v_hat ->
  Newmark.A pd p h acc z = Newmark.f_load pd p traction u_hat v_hat z ->
  let s' := Newmark.corrector p h u_hat v_hat acc in
  mass pd (Newmark.acc_sol s') z
  + Newmark.damping pd p (Newmark.vit_sol s') z
  + Newmark.stiffness pd (Newmark.u_sol s') z
  = p_ext pd traction z.
Proof.
  intros Hu Hv HA. simpl.
  unfold Newmark.A, Newmark.f_load in HA.
  unfold Newmark.damping, Newmark.stiffness in *.
  rewrite damping_axpy by exact Hv.
  rewrite stiffness_linear_axpy by exact Hu.
  transitivity
    (mass pd acc z
     + Newmark.gamma p * h * damping pd (Newmark.eta_m p) (Newmark.eta_k p) acc z
     + Newmark.beta p * h * h * stiffness_linear pd acc z
     + stiffness_linear pd u_hat z
     + damping pd (Newmark.eta_m p) (Newmark.eta_k p) v_hat z).
  - ring.
  - rewrite HA. ring.
Qed.

Lemma length_predictor (s : Newmark.state) :
  length (Newmark.u_sol s) = ndofs pd ->
  length (Newmark.vit_sol s) = ndofs pd ->
  length (Newmark.acc_sol s) = ndofs pd ->
  length (fst (Newmark.predictor p h s)) = ndofs pd
  /\ length (snd (Newmark.predictor p h s)) = ndofs pd.
Proof.
  intros Hu Hv Ha. unfold Newmark.predictor. simpl.
  rewrite !length_axpy; try rewrite !length_axpy; auto; congruence.
Qed.

End NewmarkConsistency.

(** C1. Newmark-beta consistency: if the new acceleration solves the
    effective system [(M + gamma*dt*C + beta*dt^2*K) a = F - K u_hat - C v_hat]
    built on the predictors of the state [(u, v, a)], then the corrected
    displacement and velocity satisfy the discretised equation of motion
    [M a + C v + K u = F]. *)
Theorem newmark_consistency (pd : problem_data) (p : Newmark.parameters)
    (h : Qc) (s : Newmark.state) (traction : Qc * Qc) (acc : vector) :
  length (Newmark.u_sol s) = ndofs pd ->
  length (Newmark.vit_sol s) = ndofs pd ->
  length (Newmark.acc_sol s) = ndofs pd ->
  length acc = ndofs pd ->
  let u_hat := fst (Newmark.predictor p h s) in
  let v_hat := snd (Newmark.predictor p h s) in
  assemble_vector pd (Newmark.A pd p h acc)
    = assemble_vector pd (Newmark.f_load pd p traction u_hat v_hat) ->
  let s' := Newmark.corrector p h u_hat v_hat acc in
  vadd (vadd (assemble_vector pd (mass pd (Newmark.acc_sol s')))
             (assemble_vector pd (Newmark.damping pd p (Newmark.vit_sol s'))))
       (assemble_vector pd (Newmark.stiffness pd (Newmark.u_sol s')))
  = assemble_vector pd (p_ext pd traction).
Proof.
  intros Hu Hv Ha Hacc u_hat v_hat Hsys s'.
  destruct (length_predictor pd p h s Hu Hv Ha) as [Hlu Hlv].
  fold u_hat in Hlu. fold v_hat in Hlv.
  apply vec_ext.
  - unfold vadd. rewrite !length_zip_with, !length_assemble_vector. lia.
  - intros i Hi. unfold vadd in *.
    rewrite !length_zip_with, !length_assemble_vector in Hi.
    assert (Hn : (i < ndofs pd)%nat) by lia.
    rewrite !nth_zip_with;
      rewrite ?length_zip_with, ?length_assemble_vector; try lia.
    rewrite !nth_assemble_vector by exact Hn.
    apply newmark_consistent_at; try congruence.
    apply (f_equal (fun x => nth i x 0)) in Hsys.
    rewrite !nth_assemble_vector in Hsys by exact Hn. exact Hsys.
Qed.

Lemma newmark_consistency_witness :
  let pd := Bar.diagonal in
  let p := Bar.newmark_parameters Bar.two 2 in
  let s := Newmark.initial_state pd in
  let traction := (Qc_of_nat 28, 0) in
  let acc := [Qc_of_nat 3; 0; Qc_of_nat 11; 0] in
  let s' := Newmark.corrector p 1 (fst (Newmark.predictor p 1 s))
                              (snd (Newmark.predictor p 1 s)) acc in
  assemble_vector pd (Newmark.A pd p 1 acc)
    = assemble_vector pd
        (Newmark.f_load pd p traction (fst (Newmark.predictor p 1 s))
                        (snd (Newmark.predictor p 1 s)))
  /\ vadd (vadd (assemble_vector pd (mass pd (Newmark.acc_sol s')))
                (assemble_vector pd (Newmark.damping pd p (Newmark.vit_sol s'))))
          (assemble_vector pd (Newmark.stiffness pd (Newmark.u_sol s')))
     = assemble_vector pd (p_ext pd traction).
Proof.
  intros pd p s traction acc s'.
  assert (Hsys : assemble_vector pd (Newmark.A pd p 1 acc)
                 = assemble_vector pd
                     (Newmark.f_load pd p traction (fst (Newmark.predictor p 1 s))
                                     (snd (Newmark.predictor p 1 s)))).
  { apply veqb_true. vm_compute. reflexivity. }
  split; [exact Hsys|].
  exact (newmark_consistency pd p 1 s traction acc
           eq_refl eq_refl eq_refl eq_refl Hsys).
Defined.

(** ** The explicit scheme, one step *)

Section ExplicitStep.

Variable solve : form2 -> form1 -> vector.
Variable pd : problem_data.
Variable p : Explicit.parameters.

Lemma assemble_vector_sub L1 L2 :
  assemble_vector pd (fun z => L1 z - L2 z)
  = vsub (assemble_vector pd L1) (assemble_vector pd L2).
Proof.
  apply vec_ext.
  - unfold vsub. rewrite length_zip_with, !length_assemble_vector. lia.
  - intros i Hi. rewrite length_assemble_vector in Hi. unfold vsub.
    rewrite nth_zip_with by (rewrite length_assemble_vector; exact Hi).
    rewrite !nth_assemble_vector by exact Hi. reflexivity.
Qed.

(** The net force: load minus stiffness response minus damping response. *)
Lemma assemble_f_load traction u v :
  assemble_vector pd (Explicit.f_load pd p traction u v)
  = vsub (vsub (assemble_vector pd (p_ext pd traction))
               (assemble_vector pd (Explicit.stiffness pd p u)))
         (assemble_vector pd (Explicit.damping pd p v)).
Proof.
  unfold Explicit.f_load.
  rewrite (assemble_vector_sub
             (fun z => p_ext pd traction z - Explicit.stiffness pd p u z)
             (Explicit.damping pd p v)).
  rewrite (assemble_vector_sub (p_ext pd traction) (Explicit.stiffness pd p u)).
  reflexivity.
Qed.

Lemma reciprocals_length x r :
  Explicit.reciprocals x = Some r -> length r = length x.
Proof.
  revert r. induction x as [|a x IH]; intros r H; simpl in H.
  - inversion H. reflexivity.
  - destruct (Explicit.reciprocal a); try discriminate.
    destruct (Explicit.reciprocals x) as [rs|]; try discriminate.
    inversion H. simpl. f_equal. apply IH. reflexivity.
Qed.

Lemma M_lumped_inv_length m :
  Explicit.M_lumped_inv pd = Some m -> length m = ndofs pd.
Proof.
  intros H. apply reciprocals_length in H. rewrite H. apply length_M_lumped.
Qed.

Lemma length_multiply m af :
  length m = ndofs pd -> length af = ndofs pd -> length (multiply m af) = ndofs pd.
Proof. intros Hm Hf. unfold multiply. rewrite length_zip_with. lia. Qed.

(** The corrector keeps sizes and boundary values. *)
Lemma corrector_admissible h q :
  Explicit.admissible pd q ->
  length (Explicit.a_sol q) = ndofs pd -> satisfies_bc pd (Explicit.a_sol q) ->
  Explicit.admissible pd (Explicit.corrector h q)
  /\ length (Explicit.a_sol (Explicit.corrector h q)) = ndofs pd
  /\ satisfies_bc pd (Explicit.a_sol (Explicit.corrector h q)).
Proof.
  intros [Hu [Hv [Bu Bv]]] Ha Ba. unfold Explicit.admissible, Explicit.corrector. simpl.
  assert (Hlv : length (axpy (Explicit.v_sol q) h (Explicit.a_sol q)) = ndofs pd).
  { rewrite length_axpy; congruence. }
  assert (Bv' : satisfies_bc pd (axpy (Explicit.v_sol q) h (Explicit.a_sol q))).
  { apply satisfies_bc_axpy; auto. congruence. }
  repeat split; auto.
  - rewrite length_axpy; congruence.
  - apply satisfies_bc_axpy; auto. congruence.
Qed.

(** What the first half of the loop body hands to the corrector. *)
Lemma update_acceleration_admissible Minv h n s q :
  (Explicit.use_lumped_mass p = false -> Explicit.solver_ok solve pd) ->
  (forall m, Minv = Some m -> length m = ndofs pd) ->
  Explicit.admissible pd s ->
  Explicit.update_acceleration solve pd p Minv h n s = Some q ->
  Explicit.admissible pd q
  /\ length (Explicit.a_sol q) = ndofs pd /\ satisfies_bc pd (Explicit.a_sol q)
  /\ Explicit.u_sol q = set_bc (bc pd) (Explicit.u_sol s)
  /\ Explicit.v_sol q = set_bc (bc pd) (Explicit.v_sol s)
  /\ set_bc (bc pd) (Explicit.a_sol q) = Explicit.a_sol q.
Proof.
  intros Hsolve Hm [Hu [Hv [Bu Bv]]] H. unfold Explicit.update_acceleration in H.
  destruct (load_eval _ _ _) as [sigma|]; try discriminate.
  destruct (Explicit.use_lumped_mass p) eqn:El.
  - destruct Minv as [m|]; try discriminate. inversion H; subst q; clear H. simpl.
    unfold Explicit.admissible. simpl. rewrite !length_set_bc.
    rewrite length_multiply by (auto using length_assemble_vector).
    repeat split; auto using set_bc_satisfies.
    apply set_bc_fixed, set_bc_satisfies.
  - inversion H; subst q; clear H. simpl.
    destruct (Hsolve eq_refl
                (Explicit.f_load pd p (sigma, 0) (Explicit.u_sol s) (Explicit.v_sol s)))
      as [Hl Hx].
    assert (Bx : satisfies_bc pd
                   (solve (mass pd)
                      (Explicit.f_load pd p (sigma, 0)
                         (Explicit.u_sol s) (Explicit.v_sol s)))).
    { eapply solves_satisfies_bc. split; eauto. }
    unfold Explicit.admissible. simpl.
    repeat split; auto using set_bc_fixed.
    + symmetry. apply set_bc_fixed. exact Bu.
    + symmetry. apply set_bc_fixed. exact Bv.
Qed.

Lemma explicit_step_admissible Minv h n s s' :
  (Explicit.use_lumped_mass p = false -> Explicit.solver_ok solve pd) ->
  (forall m, Minv = Some m -> length m = ndofs pd) ->
  Explicit.admissible pd s ->
  Explicit.explicit_step solve pd p Minv h n s = Some s' ->
  Explicit.admissible pd s'.
Proof.
  intros Hsolve Hm Hs H. unfold Explicit.explicit_step in H.
  destruct (Explicit.update_acceleration solve pd p Minv h n s) as [q|] eqn:E;
    try discriminate.
  inversion H; subst s'.
  destruct (update_acceleration_admissible Minv h n s q Hsolve Hm Hs E)
    as [Hq [Ha [Ba _]]].
  apply corrector_admissible; assumption.
Qed.

Lemma initial_state_admissible : Explicit.admissible pd (Explicit.initial_state pd).
Proof.
  unfold Explicit.admissible, Explicit.initial_state. simpl.
  rewrite !length_full. repeat split; auto using satisfies_bc_full_0.
Qed.

End ExplicitStep.

(** C2, as the code has it.  One step of the lumped-mass scheme from the state
    [(u, v)] at index [n]: with the net force [f] equal to the external load
    at [(n+1)*dt] minus the stiffness response at [u] minus the damping
    response at [v], on every unconstrained dof the new acceleration is the
    product of the inverse lumped mass with [f], the new velocity is
    [v + dt*a'] and the new displacement is [u + dt*v'] with the new
    velocity; on every constrained dof the three arrays hold the prescribed
    value zero. *)
Theorem explicit_step_central_difference (solve : form2 -> form1 -> vector)
    (pd : problem_data) (p : Explicit.parameters) (minv : vector) (h : Qc)
    (n : nat) (s : Explicit.state) :
  Explicit.use_lumped_mass p = true ->
  Explicit.t_cutoff p <> 0 ->
  length minv = ndofs pd ->
  length (Explicit.u_sol s) = ndofs pd ->
  length (Explicit.v_sol s) = ndofs pd ->
  exists sigma s',
    load_eval (Explicit.sigma_max p) (Explicit.t_cutoff p) (Qc_of_nat (n + 1) * h)
      = Some sigma
    /\ Explicit.explicit_step solve pd p (Some minv) h n s = Some s'
    /\ length (Explicit.u_sol s') = ndofs pd
    /\ length (Explicit.v_sol s') = ndofs pd
    /\ length (Explicit.a_sol s') = ndofs pd
    /\ let f := vsub (vsub (assemble_vector pd (p_ext pd (sigma, 0)))
                           (assemble_vector pd (Explicit.stiffness pd p (Explicit.u_sol s))))
                     (assemble_vector pd (Explicit.damping pd p (Explicit.v_sol s))) in
       forall i, (i < ndofs pd)%nat ->
         if is_constrained (bc pd) i then
           nth i (Explicit.a_sol s') 0 = 0
           /\ nth i (Explicit.v_sol s') 0 = 0
           /\ nth i (Explicit.u_sol s') 0 = 0
         else
           nth i (Explicit.a_sol s') 0 = nth i minv 0 * nth i f 0
           /\ nth i (Explicit.v_sol s') 0
              = nth i (Explicit.v_sol s) 0 + h * nth i (Explicit.a_sol s') 0
           /\ nth i (Explicit.u_sol s') 0
              = nth i (Explicit.u_sol s) 0 + h * nth i (Explicit.v_sol s') 0.
Proof.
  intros Hl Hc Hm Hu Hv.
  destruct (load_eval_defined (Explicit.sigma_max p) (Explicit.t_cutoff p)
              (Qc_of_nat (n + 1) * h) Hc) as [sigma Hs].
  exists sigma. eexists. split; [exact Hs|].
  unfold Explicit.explicit_step, Explicit.update_acceleration.
  rewrite Hs, Hl. cbn [option_map]. split; [reflexivity|].
  cbn [Explicit.corrector Explicit.u_sol Explicit.v_sol Explicit.a_sol].
  rewrite <- assemble_f_load.
  set (af := assemble_vector pd
               (Explicit.f_load pd p (sigma, 0) (Explicit.u_sol s) (Explicit.v_sol s))).
  assert (Hf : length af = ndofs pd) by apply length_assemble_vector.
  assert (Hla : length (set_bc (bc pd) (multiply minv af)) = ndofs pd).
  { rewrite length_set_bc. apply length_multiply; assumption. }
  assert (Hlv : length (axpy (set_bc (bc pd) (Explicit.v_sol s)) h
                             (set_bc (bc pd) (multiply minv af))) = ndofs pd).
  { rewrite length_axpy; rewrite ?Hla, ?length_set_bc; congruence. }
  split; [|split; [exact Hlv|split; [exact Hla|]]].
  { rewrite length_axpy; rewrite ?Hlv, ?length_set_bc; congruence. }
  intros i Hi.
  assert (Ea : nth i (set_bc (bc pd) (multiply minv af)) 0
               = if is_constrained (bc pd) i then 0 else nth i minv 0 * nth i af 0).
  { rewrite nth_set_bc by (rewrite (length_multiply pd) by assumption; exact Hi).
    rewrite prescribed_bc. unfold multiply.
    rewrite nth_zip_with by lia. reflexivity. }
  assert (Ev : nth i (axpy (set_bc (bc pd) (Explicit.v_sol s)) h
                           (set_bc (bc pd) (multiply minv af))) 0
               = (if is_constrained (bc pd) i then 0 else nth i (Explicit.v_sol s) 0)
                 + h * nth i (set_bc (bc pd) (multiply minv af)) 0).
  { rewrite nth_axpy by (rewrite ?Hla, ?length_set_bc; lia).
    rewrite nth_set_bc by lia. rewrite prescribed_bc. reflexivity. }
  assert (Eu : nth i (axpy (set_bc (bc pd) (Explicit.u_sol s)) h
                           (axpy (set_bc (bc pd) (Explicit.v_sol s)) h
                                 (set_bc (bc pd) (multiply minv af)))) 0
               = (if is_constrained (bc pd) i then 0 else nth i (Explicit.u_sol s) 0)
                 + h * nth i (axpy (set_bc (bc pd) (Explicit.v_sol s)) h
                                   (set_bc (bc pd) (multiply minv af))) 0).
  { rewrite nth_axpy by (rewrite ?Hlv, ?length_set_bc; lia).
    rewrite nth_set_bc by lia. rewrite prescribed_bc. reflexivity. }
  rewrite Eu, Ev, Ea.
  destruct (is_constrained (bc pd) i); repeat split; ring.
Qed.

Lemma explicit_step_central_difference_witness :
  let pd := Bar.consistent in
  let p := Bar.explicit_parameters true true Bar.two 2 in
  exists s',
    Explicit.explicit_step (uncoupled_solve pd) pd p
      (Some (full 4 (1 / (Bar.two + 1)))) 1 0 (Explicit.initial_state pd) = Some s'
    /\ length (Explicit.a_sol s') = 4%nat.
Proof.
  intros pd p.
  destruct (explicit_step_central_difference (uncoupled_solve pd) pd p
              (full 4 (1 / (Bar.two + 1))) 1 0 (Explicit.initial_state pd))
    as [sigma [s' [_ [E [_ [_ [Ha _]]]]]]]; try reflexivity.
  - intros H. apply (f_equal this) in H. vm_compute in H. discriminate H.
  - exists s'. split; assumption.
Defined.

(** C2, as stated, fails on the constrained dofs.  After the first step of
    the bar the net force on the clamped node is not zero, and the second
    step does not leave the product of the inverse lumped mass with that
    force in the acceleration: [set_bc] has overwritten the entry. *)
Lemma explicit_acceleration_not_product :
  let pd := Bar.consistent in
  let p := Bar.explicit_parameters true true Bar.two 2 in
  let solve := uncoupled_solve pd in
  exists h minv s1 s2,
    Explicit.dt p = Some h
    /\ Explicit.M_lumped_inv pd = Some minv
    /\ Explicit.run solve pd p
       = Some [(Qc_of_nat (0 + 1) * h, s1); (Qc_of_nat (1 + 1) * h, s2)]
    /\ load_eval (Explicit.sigma_max p) (Explicit.t_cutoff p) (Qc_of_nat (1 + 1) * h)
       = Some (1 * (Qc_of_nat (1 + 1) * h) / Bar.two)
    /\ let f := vsub (vsub (assemble_vector pd
                               (p_ext pd (1 * (Qc_of_nat (1 + 1) * h) / Bar.two, 0)))
                            (assemble_vector pd
                               (Explicit.stiffness pd p (Explicit.u_sol s1))))
                      (assemble_vector pd (Explicit.damping pd p (Explicit.v_sol s1))) in
       map this (Explicit.a_sol s2) = [0; 0; 2 # 9; 0]%Q
       /\ map this (multiply minv f) = [1 # 9; 0; 2 # 9; 0]%Q
       /\ Explicit.a_sol s2 <> multiply minv f.
Proof.
  intros pd p solve.
  eexists. eexists. eexists. eexists.
  split; [reflexivity|]. split; [reflexivity|]. split; [reflexivity|].
  split; [reflexivity|].
  intros f. split; [|split].
  - vm_compute. reflexivity.
  - vm_compute. reflexivity.
  - intros H. apply (f_equal (map this)) in H. vm_compute in H. discriminate H.
Qed.

(** ** Runs *)

Section LoopSteps.

Context {S : Type}.
Variable step : nat -> S -> option S.
Variable h : Qc.

(** In a completed loop every state is obtained from the one before it by
    the loop body. *)
Lemma time_loop_steps ns s tr d :
  time_loop step h ns s = Some tr ->
  forall k, (k < length ns)%nat ->
    step (nth k ns 0%nat) (nth k (s :: map snd tr) d)
    = Some (nth k (map snd tr) d).
Proof.
  revert s tr. induction ns as [|n ns IH]; intros s tr H k Hk; simpl in *; try lia.
  destruct (step n s) as [s'|] eqn:Es; try discriminate.
  destruct (time_loop step h ns s') as [tr'|] eqn:E; try discriminate.
  inversion H; subst tr; clear H. simpl.
  destruct k as [|k]; [exact Es|].
  apply (IH s' tr' E k). lia.
Qed.


End LoopSteps.

Section ExplicitRun.

Variable solve : form2 -> form1 -> vector.
Variable pd : problem_data.
Variable p : Explicit.parameters.

Hypothesis solver_full :
  Explicit.use_lumped_mass p = false -> Explicit.solver_ok solve pd.


Lemma explicit_run_admissible tr :
  Explicit.run solve pd p = Some tr ->
  Forall (fun ts => Explicit.admissible pd (snd ts)) tr.
Proof.
  intros Hrun. unfold Explicit.run in Hrun.
  destruct (Explicit.dt p) as [h|]; try discriminate.
  eapply time_loop_invariant; eauto.
  - intros n s s'. apply explicit_step_admissible; auto.
    apply M_lumped_inv_length.
  - apply initial_state_admissible.
Qed.

End ExplicitRun.

Lemma nth_set_bc_free pd x i :
  is_constrained (bc pd) i = false -> nth i (set_bc (bc pd) x) 0 = nth i x 0.
Proof.
  intros Hc. destruct (Nat.lt_ge_cases i (length x)) as [Hi|Hi].
  - rewrite nth_set_bc by exact Hi. rewrite Hc. reflexivity.
  - rewrite !nth_overflow by (rewrite ?length_set_bc; exact Hi). reflexivity.
Qed.

Lemma nth_set_bc_constrained pd x i :
  is_constrained (bc pd) i = true -> (i < length x)%nat ->
  nth i (set_bc (bc pd) x) 0 = prescribed (bc pd) i /\ nth i (set_bc (bc pd) x) 0 = 0.
Proof.
  intros Hc Hi. rewrite nth_set_bc by exact Hi. rewrite Hc.
  split; [reflexivity|apply prescribed_bc].
Qed.

(** C6, as the code has it.  For every state [s] that enters an iteration,
    [q] is what the first half of the loop body hands to the corrector.
    With the lumped mass the three calls of [set_bc] come between the product
    and the corrector: [u_n], [v_n] and the product have their constrained
    dofs set to the prescribed value, which is zero, and their other entries
    kept.  With the full mass there is no call of [set_bc]: [u_n] and [v_n]
    reach the corrector as they are, and only [a_{n+1}], the result of the
    solve with [bcs=[bc]], holds the boundary value; when [u_n] and [v_n]
    satisfy the boundary condition already, imposing it would change
    nothing. *)
Theorem bc_reimposed_before_corrector (solve : form2 -> form1 -> vector)
    (pd : problem_data) (p : Explicit.parameters) (Minv : option vector)
    (h : Qc) (n : nat) (s q : Explicit.state) :
  Explicit.update_acceleration solve pd p Minv h n s = Some q ->
  Explicit.explicit_step solve pd p Minv h n s = Some (Explicit.corrector h q)
  /\ (Explicit.use_lumped_mass p = true ->
        Explicit.u_sol q = set_bc (bc pd) (Explicit.u_sol s)
        /\ Explicit.v_sol q = set_bc (bc pd) (Explicit.v_sol s)
        /\ (exists sigma m,
              load_eval (Explicit.sigma_max p) (Explicit.t_cutoff p)
                        (Qc_of_nat (n + 1) * h) = Some sigma
              /\ Minv = Some m
              /\ Explicit.a_sol q
                 = set_bc (bc pd)
                     (multiply m
                        (assemble_vector pd
                           (Explicit.f_load pd p (sigma, 0)
                              (Explicit.u_sol s) (Explicit.v_sol s)))))
        /\ (forall i, is_constrained (bc pd) i = true ->
              ((i < length (Explicit.u_sol s))%nat ->
                 nth i (Explicit.u_sol q) 0 = prescribed (bc pd) i
                 /\ nth i (Explicit.u_sol q) 0 = 0)
              /\ ((i < length (Explicit.v_sol s))%nat ->
                    nth i (Explicit.v_sol q) 0 = 0)
              /\ ((i < length (Explicit.a_sol q))%nat ->
                    nth i (Explicit.a_sol q) 0 = 0))
        /\ (forall i, is_constrained (bc pd) i = false ->
              nth i (Explicit.u_sol q) 0 = nth i (Explicit.u_sol s) 0
              /\ nth i (Explicit.v_sol q) 0 = nth i (Explicit.v_sol s) 0))
  /\ (Explicit.use_lumped_mass p = false ->
        Explicit.u_sol q = Explicit.u_sol s
        /\ Explicit.v_sol q = Explicit.v_sol s
        /\ (exists sigma,
              load_eval (Explicit.sigma_max p) (Explicit.t_cutoff p)
                        (Qc_of_nat (n + 1) * h) = Some sigma
              /\ Explicit.a_sol q
                 = solve (mass pd)
                     (Explicit.f_load pd p (sigma, 0)
                        (Explicit.u_sol s) (Explicit.v_sol s)))
        /\ (Explicit.solver_ok solve pd ->
              set_bc (bc pd) (Explicit.a_sol q) = Explicit.a_sol q
              /\ forall i, (i < ndofs pd)%nat -> is_constrained (bc pd) i = true ->
                   nth i (Explicit.a_sol q) 0 = 0)
        /\ (satisfies_bc pd (Explicit.u_sol s) -> satisfies_bc pd (Explicit.v_sol s) ->
              Explicit.u_sol q = set_bc (bc pd) (Explicit.u_sol s)
              /\ Explicit.v_sol q = set_bc (bc pd) (Explicit.v_sol s))).
Proof.
  intros H. split; [|split].
  - unfold Explicit.explicit_step. rewrite H. reflexivity.
  - intros El. unfold Explicit.update_acceleration in H. rewrite El in H.
    destruct (load_eval _ _ _) as [sigma|] eqn:Es; try discriminate.
    destruct Minv as [m|]; try discriminate.
    inversion H; subst q; clear H.
    cbn [Explicit.u_sol Explicit.v_sol Explicit.a_sol].
    split; [reflexivity|]. split; [reflexivity|]. split.
    { exists sigma, m. repeat split; reflexivity. }
    split.
    + intros i Hc. split; [|split]; intros Hi.
      * apply nth_set_bc_constrained; assumption.
      * apply nth_set_bc_constrained; assumption.
      * rewrite length_set_bc in Hi. apply nth_set_bc_constrained; assumption.
    + intros i Hc. split; apply nth_set_bc_free; exact Hc.
  - intros El. unfold Explicit.update_acceleration in H. rewrite El in H.
    destruct (load_eval _ _ _) as [sigma|] eqn:Es; try discriminate.
    inversion H; subst q; clear H.
    cbn [Explicit.u_sol Explicit.v_sol Explicit.a_sol].
    split; [reflexivity|]. split; [reflexivity|]. split.
    { exists sigma. split; reflexivity. }
    split.
    + intros Hsolve.
      pose proof (Hsolve (Explicit.f_load pd p (sigma, 0)
                            (Explicit.u_sol s) (Explicit.v_sol s))) as Hx.
      pose proof (solves_satisfies_bc pd _ _ _ Hx) as Bx.
      split; [apply set_bc_fixed; exact Bx|].
      intros i Hi Hc. destruct Hx as [Hl _].
      rewrite Bx by (auto; rewrite Hl; exact Hi). apply prescribed_bc.
    + intros Bu Bv. split; symmetry; apply set_bc_fixed; assumption.
Qed.

(** ** The uncoupled solver meets the contract of the library solver *)

Lemma nth_uncoupled_solve pd a L i :
  (i < ndofs pd)%nat ->
  nth i (uncoupled_solve pd a L) 0
  = if is_constrained (bc pd) i then prescribed (bc pd) i
    else L (basis (ndofs pd) i) / a (basis (ndofs pd) i) (basis (ndofs pd) i).
Proof.
  intros Hi. unfold uncoupled_solve.
  set (g := fun i => if is_constrained (bc pd) i then prescribed (bc pd) i
                     else L (basis (ndofs pd) i)
                          / a (basis (ndofs pd) i) (basis (ndofs pd) i)).
  rewrite nth_indep with (d' := g 0%nat)
    by (rewrite length_map, length_seq; exact Hi).
  rewrite map_nth with (d := 0%nat). rewrite seq_nth by exact Hi. reflexivity.
Qed.

Lemma length_uncoupled_solve pd a L : length (uncoupled_solve pd a L) = ndofs pd.
Proof. unfold uncoupled_solve. rewrite length_map, length_seq. reflexivity. Qed.

Lemma uncoupled_solve_satisfies_bc pd a L : satisfies_bc pd (uncoupled_solve pd a L).
Proof.
  intros i Hi Hc. rewrite length_uncoupled_solve in Hi.
  rewrite nth_uncoupled_solve by exact Hi. rewrite Hc. reflexivity.
Qed.

Lemma uncoupled_solve_solves pd a L :
  (forall i, (i < ndofs pd)%nat -> is_constrained (bc pd) i = false ->
             a (basis (ndofs pd) i) (basis (ndofs pd) i) <> 0) ->
  (forall x i, length x = ndofs pd -> satisfies_bc pd x ->
               (i < ndofs pd)%nat -> is_constrained (bc pd) i = false ->
               a x (basis (ndofs pd) i)
               = a (basis (ndofs pd) i) (basis (ndofs pd) i) * nth i x 0) ->
  solves pd a L (uncoupled_solve pd a L).
Proof.
  intros Hnz Hunc. split; [apply length_uncoupled_solve|].
  intros i Hi. destruct (is_constrained (bc pd) i) eqn:Hc.
  - rewrite nth_uncoupled_solve by exact Hi. rewrite Hc. reflexivity.
  - rewrite Hunc; auto using length_uncoupled_solve, uncoupled_solve_satisfies_bc.
    rewrite nth_uncoupled_solve by exact Hi. rewrite Hc. field. auto.
Qed.

(** An array of the bar that satisfies the boundary condition. *)
Lemma bar_arrays pd x :
  ndofs pd = 4%nat -> boundary_clamped_dofs pd = [0%nat] ->
  length x = ndofs pd -> satisfies_bc pd x ->
  exists x2 x3, x = [0; 0; x2; x3].
Proof.
  intros Hn Hb Hl Hx. rewrite Hn in Hl.
  destruct x as [|x0 [|x1 [|x2 [|x3 [|]]]]]; try discriminate.
  exists x2, x3.
  assert (H0 : x0 = 0).
  { rewrite <- (prescribed_bc pd 0). apply (Hx 0%nat); [simpl; lia|].
    unfold is_constrained, bc. simpl. rewrite Hb. reflexivity. }
  assert (H1 : x1 = 0).
  { rewrite <- (prescribed_bc pd 1). apply (Hx 1%nat); [simpl; lia|].
    unfold is_constrained, bc. simpl. rewrite Hb. reflexivity. }
  subst. reflexivity.
Qed.

(** Case analysis on a dof [i] of the bar, with [Hi : i < 4] and
    [Hc : is_constrained _ i = false]: the cases left are dofs 2 and 3. *)
Ltac bar_dof i Hi Hc :=
  destruct i as [|[|[|[|?]]]];
  try (vm_compute in Hc; discriminate Hc);
  try (simpl in Hi; lia).

Lemma bar_consistent_solver_ok :
  Explicit.solver_ok (uncoupled_solve Bar.consistent) Bar.consistent.
Proof.
  intros L. apply uncoupled_solve_solves.
  - intros i Hi Hc H. apply (f_equal this) in H.
    bar_dof i Hi Hc; vm_compute in H; discriminate H.
  - intros x i Hl Hx Hi Hc.
    destruct (bar_arrays Bar.consistent x eq_refl eq_refl Hl Hx) as [x2 [x3 ->]].
    bar_dof i Hi Hc;
      cbv [mass Bar.consistent inner_dx rho matvec map dot basis seq Nat.eqb ndofs nth];
      ring.
Qed.

Lemma bc_reimposed_before_corrector_witness :
  let pd := Bar.consistent in
  let p := Bar.explicit_parameters true true Bar.two 2 in
  let s := {| Explicit.u_sol := [1; 1; 1; 1];
              Explicit.v_sol := [1; 1; 1; 1];
              Explicit.a_sol := [0; 0; 0; 0] |} in
  exists q,
    Explicit.update_acceleration (uncoupled_solve pd) pd p
      (Explicit.M_lumped_inv pd) 1 0 s = Some q
    /\ Explicit.u_sol q = set_bc (bc pd) (Explicit.u_sol s)
    /\ Explicit.v_sol q = set_bc (bc pd) (Explicit.v_sol s)
    /\ nth 0 (Explicit.u_sol q) 0 = 0
    /\ nth 2 (Explicit.u_sol q) 0 = 1.
Proof.
  intros pd p s.
  assert (Hq : exists q,
             Explicit.update_acceleration (uncoupled_solve pd) pd p
               (Explicit.M_lumped_inv pd) 1 0 s = Some q)
    by (eexists; reflexivity).
  destruct Hq as [q Hq]. exists q. split; [exact Hq|].
  destruct (bc_reimposed_before_corrector (uncoupled_solve pd) pd p
              (Explicit.M_lumped_inv pd) 1 0 s q Hq) as [_ [Hl _]].
  destruct (Hl eq_refl) as [Eu [Ev [_ [Hc Hf]]]].
  split; [exact Eu|]. split; [exact Ev|]. split.
  - apply (Hc 0%nat); [reflexivity|simpl; lia].
  - rewrite (proj1 (Hf 2%nat eq_refl)). reflexivity.
Defined.

(** C6, as stated, fails for the full mass: the branch of [problem.solve()]
    calls no [set_bc].  From arrays whose constrained entries are not at the
    boundary value, the displacement and the velocity reach the corrector
    unchanged, although the solver meets its contract, and they leave the
    iteration with these entries still off the boundary value; the lumped
    branch sets them back. *)
Lemma full_mass_does_not_reimpose :
  let pd := Bar.consistent in
  let solve := uncoupled_solve pd in
  let p := Bar.explicit_parameters true false Bar.two 2 in
  let s := {| Explicit.u_sol := [1; 0; 0; 0];
              Explicit.v_sol := [0; 1; 0; 0];
              Explicit.a_sol := [0; 0; 0; 0] |} in
  Explicit.solver_ok solve pd
  /\ is_constrained (bc pd) 0 = true /\ is_constrained (bc pd) 1 = true
  /\ prescribed (bc pd) 0 = 0 /\ prescribed (bc pd) 1 = 0
  /\ (exists q s',
        Explicit.update_acceleration solve pd p (Explicit.M_lumped_inv pd) 1 0 s
          = Some q
        /\ Explicit.explicit_step solve pd p (Explicit.M_lumped_inv pd) 1 0 s
           = Some s'
        /\ Explicit.u_sol q = [1; 0; 0; 0]
        /\ Explicit.v_sol q = [0; 1; 0; 0]
        /\ Explicit.u_sol q <> set_bc (bc pd) (Explicit.u_sol s)
        /\ Explicit.v_sol q <> set_bc (bc pd) (Explicit.v_sol s)
        /\ nth 0 (Explicit.u_sol s') 0 <> prescribed (bc pd) 0
        /\ nth 1 (Explicit.v_sol s') 0 <> prescribed (bc pd) 1)
  /\ (exists q,
        Explicit.update_acceleration solve pd (Explicit.with_lumped_mass true p)
          (Explicit.M_lumped_inv pd) 1 0 s = Some q
        /\ map this (Explicit.u_sol q) = [0; 0; 0; 0]%Q
        /\ map this (Explicit.v_sol q) = [0; 0; 0; 0]%Q).
Proof.
  intros pd solve p s.
  split; [exact bar_consistent_solver_ok|].
  split; [reflexivity|]. split; [reflexivity|].
  split; [apply prescribed_bc|]. split; [apply prescribed_bc|]. split.
  - eexists. eexists. split; [reflexivity|]. split; [reflexivity|].
    split; [reflexivity|]. split; [reflexivity|].
    repeat split; intros H;
      try apply (f_equal (map this)) in H; try apply (f_equal this) in H;
      vm_compute in H; discriminate H.
  - eexists. split; [reflexivity|]. split; vm_compute; reflexivity.
Qed.

(** ** The boundary condition along the runs *)

Lemma satisfies_bc_clamped pd u :
  length u = ndofs pd -> satisfies_bc pd u -> clamped pd u.
Proof.
  intros Hl Hu. split; [exact Hl|split].
  - intros i Hi Hc. rewrite <- Hl in Hi. split.
    + apply Hu; assumption.
    + rewrite Hu by assumption. apply prescribed_bc.
  - apply set_bc_fixed. exact Hu.
Qed.

Section NewmarkRun.

Variable solve : form2 -> form1 -> vector.
Variable pd : problem_data.
Variable p : Newmark.parameters.
Variable h : Qc.

Hypothesis solver_effective : Newmark.solver_ok solve pd p h.

Lemma newmark_step_admissible n s s' :
  Newmark.admissible pd s ->
  Newmark.newmark_step solve pd p h n s = Some s' ->
  Newmark.admissible pd s'.
Proof.
  intros [[Hu Bu] [[Hv Bv] [Ha Ba]]] H.
  unfold Newmark.newmark_step, Newmark.predictor in H.
  destruct (load_eval _ _ _) as [sigma|]; try discriminate.
  inversion H; subst s'; clear H.
  set (u_hat := axpy (axpy (Newmark.u_sol s) h (Newmark.vit_sol s))
                     (h * h / Newmark.two * (1 - Newmark.two * Newmark.beta p))
                     (Newmark.acc_sol s)).
  set (v_hat := axpy (Newmark.vit_sol s) (h * (1 - Newmark.gamma p))
                     (Newmark.acc_sol s)).
  set (acc := solve (Newmark.A pd p h)
                    (Newmark.f_load pd p (sigma, 0) u_hat v_hat)).
  assert (Hl1 : length (axpy (Newmark.u_sol s) h (Newmark.vit_sol s)) = ndofs pd).
  { rewrite length_axpy; congruence. }
  assert (Hlu : length u_hat = ndofs pd).
  { unfold u_hat. rewrite length_axpy; congruence. }
  assert (Hlv : length v_hat = ndofs pd).
  { unfold v_hat. rewrite length_axpy; congruence. }
  assert (Bu' : satisfies_bc pd u_hat).
  { unfold u_hat. apply satisfies_bc_axpy; auto.
    - congruence.
    - apply satisfies_bc_axpy; auto. congruence. }
  assert (Bv' : satisfies_bc pd v_hat).
  { unfold v_hat. apply satisfies_bc_axpy; auto. congruence. }
  destruct (solver_effective (Newmark.f_load pd p (sigma, 0) u_hat v_hat))
    as [Hlacc Hacc].
  fold acc in Hlacc, Hacc.
  assert (Bacc : satisfies_bc pd acc).
  { eapply solves_satisfies_bc. split; eauto. }
  unfold Newmark.admissible, Newmark.corrector. simpl.
  repeat split; auto.
  - rewrite length_axpy; congruence.
  - apply satisfies_bc_axpy; auto. congruence.
  - rewrite length_axpy; congruence.
  - apply satisfies_bc_axpy; auto. congruence.
Qed.

(** With the library solver, the step satisfies the equation of motion
    tested against every unconstrained basis function. *)
Lemma newmark_step_equation_of_motion n s s' sigma :
  Newmark.admissible pd s ->
  load_eval (Newmark.sigma_max p) (Newmark.t_cutoff p) (Qc_of_nat (n + 1) * h)
    = Some sigma ->
  Newmark.newmark_step solve pd p h n s = Some s' ->
  forall i, (i < ndofs pd)%nat -> is_constrained (bc pd) i = false ->
    mass pd (Newmark.acc_sol s') (basis (ndofs pd) i)
    + Newmark.damping pd p (Newmark.vit_sol s') (basis (ndofs pd) i)
    + Newmark.stiffness pd (Newmark.u_sol s') (basis (ndofs pd) i)
    = p_ext pd (sigma, 0) (basis (ndofs pd) i).
Proof.
  intros [[Hu Bu] [[Hv Bv] [Ha Ba]]] Hs H i Hi Hc.
  unfold Newmark.newmark_step in H.
  destruct (length_predictor pd p h s Hu Hv Ha) as [Hlu Hlv].
  destruct (Newmark.predictor p h s) as [u_hat v_hat]. simpl in Hlu, Hlv.
  rewrite Hs in H. inversion H; subst s'; clear H.
  destruct (solver_effective (Newmark.f_load pd p (sigma, 0) u_hat v_hat))
    as [Hlacc Hacc].
  specialize (Hacc i Hi). rewrite Hc in Hacc.
  apply newmark_consistent_at; congruence.
Qed.

Lemma newmark_initial_state_admissible :
  Newmark.admissible pd (Newmark.initial_state pd).
Proof.
  unfold Newmark.admissible, Newmark.initial_state. simpl.
  rewrite !length_full. repeat split; auto using satisfies_bc_full_0.
Qed.

Lemma newmark_run_admissible tr :
  Newmark.dt p = Some h ->
  Newmark.run solve pd p = Some tr ->
  Forall (fun ts => Newmark.admissible pd (snd ts)) tr.
Proof.
  intros Hh Hrun. unfold Newmark.run in Hrun. rewrite Hh in Hrun.
  eapply time_loop_invariant; eauto.
  - intros n s s'. apply newmark_step_admissible.
  - apply newmark_initial_state_admissible.
Qed.

End NewmarkRun.

(** C3. Starting from the zero state, after every corrector step of the
    explicit scheme (lumped or full mass) and of the Newmark scheme, the
    constrained dofs of the displacement hold the prescribed value, which
    is zero, and [set_bc] leaves the displacement unchanged. *)
Theorem boundary_condition_invariant (solve : form2 -> form1 -> vector)
    (pd : problem_data) :
  (forall p tr,
     (Explicit.use_lumped_mass p = false -> Explicit.solver_ok solve pd) ->
     Explicit.run solve pd p = Some tr ->
     Forall (fun ts => clamped pd (Explicit.u_sol (snd ts))) tr)
  /\ (forall p h tr,
        Newmark.dt p = Some h ->
        Newmark.solver_ok solve pd p h ->
        Newmark.run solve pd p = Some tr ->
        Forall (fun ts => clamped pd (Newmark.u_sol (snd ts))) tr).
Proof.
  split.
  - intros p tr Hsolve Hrun.
    pose proof (explicit_run_admissible solve pd p Hsolve tr Hrun) as HF.
    eapply Forall_impl; [|exact HF].
    intros [t s] [Hu [_ [Bu _]]]. simpl in *.
    apply satisfies_bc_clamped; assumption.
  - intros p h tr Hh Hsolve Hrun.
    pose proof (newmark_run_admissible solve pd p h Hsolve tr Hh Hrun) as HF.
    eapply Forall_impl; [|exact HF].
    intros [t s] [[Hu Bu] _]. simpl in *.
    apply satisfies_bc_clamped; assumption.
Qed.

Lemma bar_newmark_solver_ok :
  Newmark.solver_ok (uncoupled_solve Bar.consistent) Bar.consistent
    (Bar.newmark_parameters Bar.two 2) (Bar.two / Qc_of_nat 2).
Proof.
  intros L. apply uncoupled_solve_solves.
  - intros i Hi Hc H. apply (f_equal this) in H.
    bar_dof i Hi Hc; vm_compute in H; discriminate H.
  - intros x i Hl Hx Hi Hc.
    destruct (bar_arrays Bar.consistent x eq_refl eq_refl Hl Hx) as [x2 [x3 ->]].
    bar_dof i Hi Hc;
      cbv [Newmark.A Newmark.damping Newmark.stiffness damping stiffness_linear
           mass Bar.consistent Bar.springs Bar.newmark_parameters
           Newmark.gamma Newmark.beta Newmark.eta_m Newmark.eta_k
           inner_dx elasticity_dx rho matvec map dot basis seq Nat.eqb ndofs nth];
      ring.
Qed.

Lemma boundary_condition_invariant_witness :
  let pd := Bar.consistent in
  let solve := uncoupled_solve pd in
  exists tr_explicit tr_newmark,
    Explicit.run solve pd (Bar.explicit_parameters true false Bar.two 2)
      = Some tr_explicit
    /\ Forall (fun ts => clamped pd (Explicit.u_sol (snd ts))) tr_explicit
    /\ Newmark.run solve pd (Bar.newmark_parameters Bar.two 2) = Some tr_newmark
    /\ Forall (fun ts => clamped pd (Newmark.u_sol (snd ts))) tr_newmark.
Proof.
  intros pd solve.
  destruct (boundary_condition_invariant solve pd) as [HE HN].
  eexists. eexists.
  split; [reflexivity|]. split.
  - apply (HE (Bar.explicit_parameters true false Bar.two 2)).
    + intros _. exact bar_consistent_solver_ok.
    + reflexivity.
  - split; [reflexivity|].
    apply (HN (Bar.newmark_parameters Bar.two 2) (Bar.two / Qc_of_nat 2)).
    + reflexivity.
    + exact bar_newmark_solver_ok.
    + reflexivity.
Defined.

(** ** Trivial equilibrium of the explicit scheme *)

Section Equilibrium.

Variable solve : form2 -> form1 -> vector.
Variable pd : problem_data.
Variable p : Explicit.parameters.

Hypothesis unloaded : Explicit.sigma_max p = 0.

(** The nonlinear stress vanishes in the reference configuration. *)
Hypothesis stress_free :
  Explicit.use_linear_model p = false ->
  piola_dx pd (full (ndofs pd) 0) = full (ndofs pd) 0.

(** The direct solver returns zero for a zero right-hand side. *)
Hypothesis solve_zero :
  Explicit.use_lumped_mass p = false ->
  forall L, (forall z, L z = 0) -> solve (mass pd) L = full (ndofs pd) 0.

Lemma f_load_zero z :
  Explicit.f_load pd p (0, 0) (full (ndofs pd) 0) (full (ndofs pd) 0) z = 0.
Proof.
  unfold Explicit.f_load, Explicit.damping, Explicit.stiffness.
  rewrite p_ext_0, damping_0.
  destruct (Explicit.use_linear_model p) eqn:El.
  - rewrite stiffness_linear_0. ring.
  - unfold stiffness_nonlinear. rewrite (stress_free eq_refl), dot_full_0_l. ring.
Qed.

Lemma assemble_vector_zero L :
  (forall z, L z = 0) -> assemble_vector pd L = full (ndofs pd) 0.
Proof.
  intros HL. apply vec_ext.
  - rewrite length_assemble_vector, length_full. reflexivity.
  - intros i Hi. rewrite length_assemble_vector in Hi.
    rewrite nth_assemble_vector by exact Hi. rewrite nth_full_0. apply HL.
Qed.

Lemma multiply_zero m n : length m = n -> multiply m (full n 0) = full n 0.
Proof.
  intros Hm. apply vec_ext.
  - unfold multiply. rewrite length_zip_with, length_full. lia.
  - intros i Hi. unfold multiply in *.
    rewrite length_zip_with, length_full in Hi.
    rewrite nth_zip_with by (rewrite ?length_full; lia).
    rewrite nth_full_0. ring.
Qed.

Lemma axpy_zero h n : axpy (full n 0) h (full n 0) = full n 0.
Proof.
  apply vec_ext.
  - rewrite length_axpy; reflexivity.
  - intros i Hi. rewrite length_axpy in Hi by reflexivity.
    rewrite nth_axpy by (auto; reflexivity). rewrite nth_full_0. ring.
Qed.

Lemma set_bc_zero n : set_bc (bc pd) (full n 0) = full n 0.
Proof. apply set_bc_fixed, satisfies_bc_full_0. Qed.

Lemma explicit_step_rest Minv h n s' :
  (forall m, Minv = Some m -> length m = ndofs pd) ->
  Explicit.explicit_step solve pd p Minv h n (Explicit.initial_state pd) = Some s' ->
  s' = Explicit.initial_state pd.
Proof.
  intros Hm H. unfold Explicit.explicit_step, Explicit.update_acceleration in H.
  destruct (load_eval _ _ _) as [sigma|] eqn:Es; try discriminate.
  apply load_eval_0 in Es; [|exact unloaded]. subst sigma.
  unfold Explicit.initial_state in *. cbn [Explicit.u_sol Explicit.v_sol] in H.
  destruct (Explicit.use_lumped_mass p) eqn:El.
  - destruct Minv as [m|]; try discriminate.
    cbn [option_map] in H. inversion H; subst s'; clear H.
    unfold Explicit.corrector. cbn [Explicit.u_sol Explicit.v_sol Explicit.a_sol].
    rewrite (assemble_vector_zero _ f_load_zero).
    rewrite multiply_zero by (apply Hm; reflexivity).
    rewrite !set_bc_zero, !axpy_zero. reflexivity.
  - cbn [option_map] in H. inversion H; subst s'; clear H.
    unfold Explicit.corrector. cbn [Explicit.u_sol Explicit.v_sol Explicit.a_sol].
    rewrite (solve_zero eq_refl _ f_load_zero).
    rewrite !axpy_zero. reflexivity.
Qed.

Lemma explicit_run_rest tr :
  Explicit.run solve pd p = Some tr ->
  Forall (fun ts => snd ts = Explicit.initial_state pd) tr.
Proof.
  intros Hrun. unfold Explicit.run in Hrun.
  destruct (Explicit.dt p) as [h|]; try discriminate.
  eapply time_loop_invariant with (Inv := fun s => s = Explicit.initial_state pd);
    [| reflexivity | exact Hrun].
  intros n s s' -> Hstep.
  eapply explicit_step_rest; [|exact Hstep].
  apply M_lumped_inv_length.
Qed.

End Equilibrium.

(** C7. Without load ([sigma_max = 0]) and from the zero state, after every
    one of the [num_steps] steps of the explicit scheme the displacement is
    the prescribed value on the constrained dofs and zero on the others. *)
Theorem trivial_equilibrium (solve : form2 -> form1 -> vector)
    (pd : problem_data) (p : Explicit.parameters)
    (tr : list (Qc * Explicit.state)) :
  Explicit.sigma_max p = 0 ->
  (Explicit.use_linear_model p = false ->
   piola_dx pd (full (ndofs pd) 0) = full (ndofs pd) 0) ->
  (Explicit.use_lumped_mass p = false ->
   forall L, (forall z, L z = 0) -> solve (mass pd) L = full (ndofs pd) 0) ->
  Explicit.run solve pd p = Some tr ->
  length tr = Explicit.num_steps p
  /\ Forall (fun ts =>
               length (Explicit.u_sol (snd ts)) = ndofs pd
               /\ forall i, (i < ndofs pd)%nat ->
                    nth i (Explicit.u_sol (snd ts)) 0
                    = if is_constrained (bc pd) i then prescribed (bc pd) i else 0)
            tr.
Proof.
  intros Hs Hp Hz Hrun. split.
  - unfold Explicit.run in Hrun. destruct (Explicit.dt p) as [h|]; try discriminate.
    apply time_loop_length in Hrun. rewrite Hrun. apply length_seq.
  - pose proof (explicit_run_rest solve pd p Hs Hp Hz tr Hrun) as HF.
    eapply Forall_impl; [|exact HF].
    intros [t s] E. simpl in E. subst s. simpl. split.
    + apply length_full.
    + intros i Hi. rewrite nth_full_0, prescribed_bc.
      destruct (is_constrained (bc pd) i); reflexivity.
Qed.

Lemma uncoupled_solve_zero pd a L :
  (forall z, L z = 0) -> uncoupled_solve pd a L = full (ndofs pd) 0.
Proof.
  intros HL. apply vec_ext.
  - rewrite length_uncoupled_solve, length_full. reflexivity.
  - intros i Hi. rewrite length_uncoupled_solve in Hi.
    rewrite nth_uncoupled_solve by exact Hi. rewrite nth_full_0, prescribed_bc, HL.
    destruct (is_constrained (bc pd) i); [reflexivity|]. unfold Qcdiv. ring.
Qed.

Lemma trivial_equilibrium_witness :
  let pd := Bar.diagonal in
  let p := Bar.unloaded_parameters false false Bar.two 2 in
  exists tr,
    Explicit.run (uncoupled_solve pd) pd p = Some tr
    /\ length tr = 2%nat
    /\ Forall (fun ts =>
                 length (Explicit.u_sol (snd ts)) = ndofs pd
                 /\ forall i, (i < ndofs pd)%nat ->
                      nth i (Explicit.u_sol (snd ts)) 0
                      = if is_constrained (bc pd) i then prescribed (bc pd) i else 0)
              tr.
Proof.
  intros pd p. eexists. split; [reflexivity|].
  apply (trivial_equilibrium (uncoupled_solve pd) pd p).
  - reflexivity.
  - intros _. apply veqb_true. vm_compute. reflexivity.
  - intros _ L HL. apply (uncoupled_solve_zero pd (mass pd) L HL).
  - reflexivity.
Defined.

(** ** Fixed horizon *)

Lemma time_step_defined t_end N :
  N <> 0%nat -> time_step t_end N = Some (t_end / Qc_of_nat N).
Proof.
  intros HN. unfold time_step. destruct (Nat.eqb_spec N 0); [contradiction|reflexivity].
Qed.

Lemma firstn_seq_prefix k start N :
  (k <= N)%nat -> firstn k (seq start N) = seq start k.
Proof.
  revert start N. induction k as [|k IH]; intros start N Hk; [reflexivity|].
  destruct N as [|N]; [lia|]. simpl. f_equal. apply IH. lia.
Qed.

Section LoopFailure.

Context {S : Type}.
Variable step : nat -> S -> option S.
Variable h : Qc.

Lemma last_cons (a d : S) (l : list S) : last (a :: l) d = last l a.
Proof.
  destruct l as [|b l]; [reflexivity|].
  change (last (a :: b :: l) d) with (last (b :: l) d).
  revert b. induction l as [|c l IH]; intros b; [reflexivity|].
  change (last (b :: c :: l) d) with (last (c :: l) d).
  change (last (b :: c :: l) a) with (last (c :: l) a).
  apply IH.
Qed.

(** A loop that fails has completed some iterations, fewer than asked for,
    and fails in the next one. *)
Lemma time_loop_stops ns s :
  time_loop step h ns s = None ->
  exists k tr_k,
    (k < length ns)%nat
    /\ time_loop step h (firstn k ns) s = Some tr_k
    /\ length tr_k = k
    /\ step (nth k ns 0%nat) (last (map snd tr_k) s) = None.
Proof.
  revert s. induction ns as [|n ns IH]; intros s H; simpl in H; [discriminate|].
  destruct (step n s) as [s'|] eqn:Es.
  - destruct (time_loop step h ns s') as [tr|] eqn:E; [discriminate|].
    destruct (IH s' E) as [k [tr_k [Hk [Hrun [Hl Hfail]]]]].
    exists (Datatypes.S k), ((Qc_of_nat (n + 1) * h, s') :: tr_k).
    split; [simpl; lia|]. split; [|split].
    + simpl. rewrite Es, Hrun. reflexivity.
    + simpl. rewrite Hl. reflexivity.
    + cbn [nth map snd]. rewrite last_cons. exact Hfail.
  - exists 0%nat, []. split; [simpl; lia|]. split; [reflexivity|].
    split; [reflexivity|]. exact Es.
Qed.

(** A completed loop has one state for each index, with the labels
    [(n+1)*dt] in the order of the indices, and every state comes from the
    state before it by one pass through the body. *)
Lemma time_loop_completed N s tr :
  time_loop step h (seq 0 N) s = Some tr ->
  length tr = N
  /\ map fst tr = map (fun n => Qc_of_nat (n + 1) * h) (seq 0 N)
  /\ forall k, (k < N)%nat ->
       step k (nth k (s :: map snd tr) s) = Some (nth k (map snd tr) s).
Proof.
  intros H.
  pose proof (time_loop_length step h _ _ _ H) as Hl. rewrite length_seq in Hl.
  split; [exact Hl|]. split; [exact (time_loop_labels step h _ _ _ H)|].
  intros k Hk.
  pose proof (time_loop_steps step h _ _ _ s H k) as Hs.
  rewrite length_seq in Hs. specialize (Hs Hk).
  rewrite seq_nth in Hs by exact Hk. exact Hs.
Qed.

Lemma time_loop_stopped N s :
  time_loop step h (seq 0 N) s = None ->
  exists k tr_k,
    (k < N)%nat
    /\ time_loop step h (seq 0 k) s = Some tr_k
    /\ length tr_k = k
    /\ step k (last (map snd tr_k) s) = None.
Proof.
  intros H. destruct (time_loop_stops _ _ H) as [k [tr_k [Hk [Hrun [Hl Hfail]]]]].
  rewrite length_seq in Hk.
  rewrite firstn_seq_prefix in Hrun by lia.
  rewrite seq_nth in Hfail by exact Hk.
  exists k, tr_k. repeat split; assumption.
Qed.

End LoopFailure.

(** What makes an iteration fail: the division by zero of [load_eval] or an
    error of the solver, nothing else. *)
Lemma explicit_iteration_fails solve pd p h n s :
  Control.explicit_iteration solve pd p h n s = None ->
  load_eval (Explicit.sigma_max p) (Explicit.t_cutoff p) (Qc_of_nat (n + 1) * h) = None
  \/ (Explicit.use_lumped_mass p = false /\ exists L, solve (mass pd) L = None).
Proof.
  unfold Control.explicit_iteration.
  destruct (load_eval _ _ _) as [sigma|]; [|auto].
  destruct (Explicit.use_lumped_mass p).
  - destruct s as [s0|]; [destruct (Explicit.M_lumped_inv pd)|]; discriminate.
  - destruct s as [s0|]; [|discriminate].
    destruct (solve _ _) eqn:E; [discriminate|]. intros _. right. eauto.
Qed.

(** With the full mass the arrays of a run are followed throughout: the
    solve never meets arrays computed with an [inf]. *)
Lemma full_mass_run_values solve pd p tr :
  Explicit.use_lumped_mass p = false ->
  Control.explicit_run solve pd p = Some tr ->
  Forall (fun ts => exists s, snd ts = Control.values s) tr.
Proof.
  intros Hl Hrun. unfold Control.explicit_run in Hrun.
  destruct (Explicit.dt p) as [h|]; [|discriminate].
  apply (time_loop_invariant _ h (fun a => exists s, a = Control.values s) _ _ _)
    with (3 := Hrun).
  - intros n a a' [s ->] H. unfold Control.explicit_iteration in H.
    destruct (load_eval _ _ _) as [sigma|]; [|discriminate]. rewrite Hl in H.
    destruct (solve _ _); [|discriminate]. inversion H. eauto.
  - eauto.
Qed.

Lemma newmark_iteration_fails solve pd p h n s :
  Control.newmark_iteration solve pd p h n s = None ->
  load_eval (Newmark.sigma_max p) (Newmark.t_cutoff p) (Qc_of_nat (n + 1) * h) = None
  \/ exists L, solve (Newmark.A pd p h) L = None.
Proof.
  unfold Control.newmark_iteration, Newmark.predictor.
  destruct (load_eval _ _ _) as [sigma|]; [|auto].
  destruct (solve _ _) eqn:E; [discriminate|]. intros _. right. eauto.
Qed.

(** With a solver that does not fail the loops with failures are the loops
    of values; for the explicit loop with the lumped mass, when the inverse
    of the row sums is finite. *)
Lemma time_loop_embed {S T : Type} (step : nat -> S -> option S)
    (step' : nat -> T -> option T) (f : S -> T) h ns s :
  (forall n s, step' n (f s) = option_map f (step n s)) ->
  time_loop step' h ns (f s)
  = option_map (map (fun ts => (fst ts, f (snd ts)))) (time_loop step h ns s).
Proof.
  intros Hstep. revert s. induction ns as [|n ns IH]; intros s; simpl; auto.
  rewrite Hstep. destruct (step n s) as [s'|]; simpl; auto.
  rewrite IH. destruct (time_loop step h ns s'); reflexivity.
Qed.

Lemma explicit_run_returns solve pd p :
  (Explicit.use_lumped_mass p = true -> exists m, Explicit.M_lumped_inv pd = Some m) ->
  Control.explicit_run (Control.returns solve) pd p
  = option_map (map (fun ts => (fst ts, Control.values (snd ts))))
               (Explicit.run solve pd p).
Proof.
  intros Hm. unfold Control.explicit_run, Explicit.run.
  destruct (Explicit.dt p) as [h|]; [|reflexivity].
  apply time_loop_embed. intros n s.
  unfold Control.explicit_iteration, Explicit.explicit_step,
    Explicit.update_acceleration, Control.returns.
  destruct (load_eval _ _ _) as [sigma|]; [|reflexivity].
  destruct (Explicit.use_lumped_mass p); [|reflexivity].
  destruct (Hm eq_refl) as [m ->]. reflexivity.
Qed.

Lemma newmark_run_returns solve pd p :
  Control.newmark_run (Control.returns solve) pd p = Newmark.run solve pd p.
Proof.
  unfold Control.newmark_run, Newmark.run.
  destruct (Newmark.dt p) as [h|]; [|reflexivity].
  replace (Control.newmark_iteration (Control.returns solve) pd p h)
    with (Newmark.newmark_step solve pd p h); [reflexivity|].
  unfold Control.newmark_iteration, Newmark.newmark_step, Control.returns.
  reflexivity.
Qed.

(** C9, as the code has it.  For a step count [N >= 1] the step is
    [dt = t_end/N], and the loop of either scheme goes through the indices
    [0, 1, ...] in their order, once each, the iteration of index [n] at the
    label [(n+1)*dt].  Either it completes: then it has made exactly [N]
    iterations, each from the state that the one before left.  Or an
    iteration fails: then the loop stops there, after fewer than [N] completed
    iterations, and the failure is the division by zero of [load_eval] at
    the label of that iteration or an error of the linear solver (full mass
    and Newmark only).  A zero row sum of the lumped mass does not stop the
    loop. *)
Theorem fixed_horizon (solve : Control.solver) (pd : problem_data) :
  (forall p : Explicit.parameters,
     Explicit.num_steps p <> 0%nat ->
     let N := Explicit.num_steps p in
     let h := Explicit.t_end p / Qc_of_nat N in
     let body := Control.explicit_iteration solve pd p h in
     let s0 := Control.values (Explicit.initial_state pd) in
     Explicit.dt p = Some h
     /\ match Control.explicit_run solve pd p with
        | Some tr =>
            length tr = N
            /\ map fst tr = map (fun n => Qc_of_nat (n + 1) * h) (seq 0 N)
            /\ (forall k, (k < N)%nat ->
                  body k (nth k (s0 :: map snd tr) s0) = Some (nth k (map snd tr) s0))
        | None =>
            exists k tr_k,
              (k < N)%nat
              /\ time_loop body h (seq 0 k) s0 = Some tr_k
              /\ length tr_k = k
              /\ body k (last (map snd tr_k) s0) = None
              /\ (load_eval (Explicit.sigma_max p) (Explicit.t_cutoff p)
                            (Qc_of_nat (k + 1) * h) = None
                  \/ (Explicit.use_lumped_mass p = false
                      /\ exists L, solve (mass pd) L = None))
        end)
  /\ (forall p : Newmark.parameters,
        Newmark.num_steps p <> 0%nat ->
        let N := Newmark.num_steps p in
        let h := Newmark.t_end p / Qc_of_nat N in
        let body := Control.newmark_iteration solve pd p h in
        let s0 := Newmark.initial_state pd in
        Newmark.dt p = Some h
        /\ match Control.newmark_run solve pd p with
           | Some tr =>
               length tr = N
               /\ map fst tr = map (fun n => Qc_of_nat (n + 1) * h) (seq 0 N)
               /\ (forall k, (k < N)%nat ->
                     body k (nth k (s0 :: map snd tr) s0)
                     = Some (nth k (map snd tr) s0))
           | None =>
               exists k tr_k,
                 (k < N)%nat
                 /\ time_loop body h (seq 0 k) s0 = Some tr_k
                 /\ length tr_k = k
                 /\ body k (last (map snd tr_k) s0) = None
                 /\ (load_eval (Newmark.sigma_max p) (Newmark.t_cutoff p)
                               (Qc_of_nat (k + 1) * h) = None
                     \/ exists L, solve (Newmark.A pd p h) L = None)
           end).
Proof.
  split.
  - intros p HN N h body s0.
    assert (Hh : Explicit.dt p = Some h).
    { unfold Explicit.dt. apply time_step_defined. exact HN. }
    split; [exact Hh|].
    unfold Control.explicit_run. rewrite Hh. fold body. fold s0. fold N.
    destruct (time_loop body h (seq 0 N) s0) as [tr|] eqn:E.
    + exact (time_loop_completed body h N s0 tr E).
    + destruct (time_loop_stopped body h N s0 E) as [k [tr_k [Hk [Hrun [Hl Hf]]]]].
      exists k, tr_k. repeat split; try assumption.
      exact (explicit_iteration_fails solve pd p h k _ Hf).
  - intros p HN N h body s0.
    assert (Hh : Newmark.dt p = Some h).
    { unfold Newmark.dt. apply time_step_defined. exact HN. }
    split; [exact Hh|].
    unfold Control.newmark_run. rewrite Hh. fold body. fold s0. fold N.
    destruct (time_loop body h (seq 0 N) s0) as [tr|] eqn:E.
    + exact (time_loop_completed body h N s0 tr E).
    + destruct (time_loop_stopped body h N s0 E) as [k [tr_k [Hk [Hrun [Hl Hf]]]]].
      exists k, tr_k. repeat split; try assumption.
      exact (newmark_iteration_fails solve pd p h k _ Hf).
Qed.

Lemma fixed_horizon_witness :
  let pd := Bar.consistent in
  let solve := Control.returns (uncoupled_solve pd) in
  let pe := Bar.explicit_parameters true true Bar.two 2 in
  let pf := Bar.explicit_parameters true false Bar.two 2 in
  let pn := Bar.newmark_parameters Bar.two 2 in
  (exists tr, Control.explicit_run solve pd pe = Some tr /\ length tr = 2%nat)
  /\ (exists tr,
        Control.explicit_run solve Examples.massless pe = Some tr
        /\ length tr = 2%nat)
  /\ (exists tr, Control.newmark_run solve pd pn = Some tr /\ length tr = 2%nat)
  /\ (Control.explicit_run Control.fails pd pf = None
      /\ exists k tr_k,
           (k < 2)%nat
           /\ time_loop (Control.explicit_iteration Control.fails pd pf
                           (Bar.two / Qc_of_nat 2))
                (Bar.two / Qc_of_nat 2) (seq 0 k)
                (Control.values (Explicit.initial_state pd)) = Some tr_k
           /\ length tr_k = k).
Proof.
  intros pd solve pe pf pn.
  assert (He : Explicit.num_steps pe <> 0%nat) by (simpl; discriminate).
  assert (Hf : Explicit.num_steps pf <> 0%nat) by (simpl; discriminate).
  assert (Hn : Newmark.num_steps pn <> 0%nat) by (simpl; discriminate).
  split; [|split; [|split]].
  - assert (Hrun : exists tr, Control.explicit_run solve pd pe = Some tr)
      by (eexists; reflexivity).
    destruct Hrun as [tr Hrun]. exists tr. split; [exact Hrun|].
    destruct (fixed_horizon solve pd) as [HE _].
    destruct (HE pe He) as [_ H]. rewrite Hrun in H. exact (proj1 H).
  - assert (Hrun : exists tr, Control.explicit_run solve Examples.massless pe = Some tr)
      by (eexists; reflexivity).
    destruct Hrun as [tr Hrun]. exists tr. split; [exact Hrun|].
    destruct (fixed_horizon solve Examples.massless) as [HE _].
    destruct (HE pe He) as [_ H]. rewrite Hrun in H. exact (proj1 H).
  - assert (Hrun : exists tr, Control.newmark_run solve pd pn = Some tr)
      by (eexists; reflexivity).
    destruct Hrun as [tr Hrun]. exists tr. split; [exact Hrun|].
    destruct (fixed_horizon solve pd) as [_ HN].
    destruct (HN pn Hn) as [_ H]. rewrite Hrun in H. exact (proj1 H).
  - assert (Hrun : Control.explicit_run Control.fails pd pf = None) by reflexivity.
    split; [exact Hrun|].
    destruct (fixed_horizon Control.fails pd) as [HE _].
    destruct (HE pf Hf) as [_ H]. rewrite Hrun in H.
    destruct H as [k [tr_k [Hk [Hl [Hlen _]]]]].
    exists k, tr_k. repeat split; assumption.
Defined.

(** C9, as stated, fails for the step count [N = 0]: the step
    [dt = t_end/num_steps] is a division by zero, and neither scheme
    completes a run of zero iterations. *)
Lemma no_run_for_zero_steps :
  let pd := Bar.consistent in
  let solve := Control.returns (uncoupled_solve pd) in
  let pe := Bar.explicit_parameters true true Bar.two 0 in
  let pn := Bar.newmark_parameters Bar.two 0 in
  Explicit.num_steps pe = 0%nat
  /\ Explicit.dt pe = None
  /\ Control.explicit_run solve pd pe = None
  /\ ~ (exists tr, Control.explicit_run solve pd pe = Some tr
                   /\ length tr = Explicit.num_steps pe)
  /\ Newmark.num_steps pn = 0%nat
  /\ Newmark.dt pn = None
  /\ Control.newmark_run solve pd pn = None
  /\ ~ (exists tr, Control.newmark_run solve pd pn = Some tr
                   /\ length tr = Newmark.num_steps pn).
Proof.
  intros pd solve pe pn.
  split; [reflexivity|]. split; [reflexivity|]. split; [reflexivity|]. split.
  - intros [tr [H _]]. discriminate H.
  - split; [reflexivity|]. split; [reflexivity|]. split; [reflexivity|].
    intros [tr [H _]]. discriminate H.
Qed.

(** ** Lumped mass against full mass *)

(** C5, as stated, fails: with the consistent mass matrix of the bar, whose
    row sums differ from its diagonal, the two variants leave the zero state
    with different accelerations, although the solver meets its contract. *)
Lemma lumped_and_full_mass_differ :
  let pd := Bar.consistent in
  let solve := uncoupled_solve pd in
  let p := Bar.explicit_parameters true true Bar.two 2 in
  Explicit.solver_ok solve pd
  /\ (exists tr_lumped tr_full,
        Explicit.run solve pd (Explicit.with_lumped_mass true p) = Some tr_lumped
        /\ Explicit.run solve pd (Explicit.with_lumped_mass false p) = Some tr_full
        /\ map (fun ts => map this (Explicit.a_sol (snd ts))) tr_lumped
           = [[0; 0; 1 # 6; 0]; [0; 0; 2 # 9; 0]]%Q
        /\ map (fun ts => map this (Explicit.a_sol (snd ts))) tr_full
           = [[0; 0; 1 # 4; 0]; [0; 0; 1 # 4; 0]]%Q)
  /\ Explicit.run solve pd (Explicit.with_lumped_mass true p)
     <> Explicit.run solve pd (Explicit.with_lumped_mass false p).
Proof.
  intros pd solve p. split; [exact bar_consistent_solver_ok|]. split.
  - eexists. eexists. split; [reflexivity|]. split; [reflexivity|].
    split; vm_compute; reflexivity.
  - intros H.
    apply (f_equal (option_map (map (fun ts => map this (Explicit.a_sol (snd ts))))))
      in H.
    vm_compute in H. discriminate H.
Qed.

Section LoopAgreement.

Context {S : Type}.
Variables step step' : nat -> S -> option S.
Variable h : Qc.
Variables Inv P : S -> Prop.

Hypothesis step_invariant : forall n s s', Inv s -> step n s = Some s' -> Inv s'.
Hypothesis step_agreement :
  forall n s s', Inv s -> step n s = Some s' -> (step' n s = Some s' <-> P s').

(** A second body gives the run of the first exactly when it agrees with
    the first at every state of that run. *)
Lemma time_loop_same ns s tr :
  Inv s -> time_loop step h ns s = Some tr ->
  (time_loop step' h ns s = Some tr <-> Forall (fun ts => P (snd ts)) tr).
Proof.
  revert s tr. induction ns as [|n ns IH]; intros s tr Hs H; simpl in H.
  - inversion H; subst tr. simpl. split; auto.
  - destruct (step n s) as [s1|] eqn:Es; try discriminate.
    destruct (time_loop step h ns s1) as [tr1|] eqn:E; try discriminate.
    inversion H; subst tr; clear H.
    pose proof (step_invariant n s s1 Hs Es) as Hs1.
    pose proof (step_agreement n s s1 Hs Es) as Hag.
    specialize (IH s1 tr1 Hs1 E). simpl. split.
    + intros H'. destruct (step' n s) as [s1'|] eqn:Es'; try discriminate.
      destruct (time_loop step' h ns s1') as [tr1'|] eqn:E'; try discriminate.
      inversion H'; subst s1' tr1'. constructor.
      * simpl. apply Hag. reflexivity.
      * apply IH. exact E'.
    + intros HF. inversion HF as [|x l Hx Hl]; subst. simpl in Hx.
      rewrite (proj2 Hag Hx). rewrite (proj2 IH Hl). reflexivity.
Qed.

End LoopAgreement.

Section LumpedAgainstFull.

Variable solve : form2 -> form1 -> vector.
Variable pd : problem_data.
Variable p : Explicit.parameters.

Hypothesis solver_meets_contract : Explicit.solver_ok solve pd.
Hypothesis solution_unique :
  forall L x, solves pd (mass pd) L x -> x = solve (mass pd) L.

(** The lumped acceleration solves the system of the full mass exactly when
    the row sums act on it as the mass matrix does. *)
Lemma lumped_acceleration_solves m L :
  Explicit.M_lumped_inv pd = Some m ->
  let a := set_bc (bc pd) (multiply m (assemble_vector pd L)) in
  solves pd (mass pd) L a <-> Lumping.exact_on pd a.
Proof.
  intros Em a.
  pose proof (M_lumped_inv_length pd m Em) as Hm.
  assert (Hla : length a = ndofs pd).
  { unfold a. rewrite length_set_bc.
    apply length_multiply; auto using length_assemble_vector. }
  assert (Hfree : forall i, (i < ndofs pd)%nat -> is_constrained (bc pd) i = false ->
                    nth i (Explicit.M_lumped pd) 0 * nth i a 0 = L (basis (ndofs pd) i)).
  { intros i Hi Hc. unfold a. rewrite nth_set_bc_free by exact Hc.
    unfold multiply. rewrite nth_zip_with by (rewrite ?length_assemble_vector; lia).
    rewrite nth_assemble_vector by exact Hi.
    assert (E1 : nth i m 0 * nth i (Explicit.M_lumped pd) 0 = 1).
    { apply reciprocals_inverse; [exact Em|]. rewrite length_M_lumped. exact Hi. }
    rewrite Qcmult_assoc, (Qcmult_comm (nth i (Explicit.M_lumped pd) 0)), E1.
    ring. }
  split.
  - intros [_ Hx] i Hi Hc. specialize (Hx i Hi). rewrite Hc in Hx.
    rewrite Hx. symmetry. apply Hfree; assumption.
  - intros Hex. split; [exact Hla|]. intros i Hi.
    destruct (is_constrained (bc pd) i) eqn:Hc.
    + unfold a. rewrite nth_set_bc
        by (rewrite (length_multiply pd) by (auto using length_assemble_vector);
            exact Hi).
      rewrite Hc. reflexivity.
    + rewrite (Hex i Hi Hc). apply Hfree; assumption.
Qed.

(** From a state that satisfies the boundary condition, the iteration with
    the full mass gives the state of the iteration with the lumped mass
    exactly when lumping is exact on the new acceleration. *)
Lemma lumped_step_is_full_step h n s s' :
  Explicit.admissible pd s ->
  Explicit.explicit_step solve pd (Explicit.with_lumped_mass true p)
    (Explicit.M_lumped_inv pd) h n s = Some s' ->
  (Explicit.explicit_step solve pd (Explicit.with_lumped_mass false p)
     (Explicit.M_lumped_inv pd) h n s = Some s'
   <-> Lumping.exact_on pd (Explicit.a_sol s')).
Proof.
  intros [Hu [Hv [Bu Bv]]] H.
  unfold Explicit.explicit_step, Explicit.update_acceleration in *.
  cbn [Explicit.with_lumped_mass Explicit.use_lumped_mass Explicit.sigma_max
       Explicit.t_cutoff] in *.
  destruct (load_eval _ _ _) as [sigma|]; [|discriminate].
  destruct (Explicit.M_lumped_inv pd) as [m|] eqn:Em; [|discriminate].
  change (Explicit.f_load pd (Explicit.with_lumped_mass true p))
    with (Explicit.f_load pd p) in H.
  change (Explicit.f_load pd (Explicit.with_lumped_mass false p))
    with (Explicit.f_load pd p).
  set (L := Explicit.f_load pd p (sigma, 0) (Explicit.u_sol s) (Explicit.v_sol s)) in *.
  rewrite (set_bc_fixed pd _ Bu), (set_bc_fixed pd _ Bv) in H.
  cbn [option_map] in *. inversion H; subst s'; clear H.
  cbn [Explicit.corrector Explicit.a_sol Explicit.u_sol Explicit.v_sol].
  pose proof (lumped_acceleration_solves m L Em) as Hiff. cbv zeta in Hiff.
  set (a := set_bc (bc pd) (multiply m (assemble_vector pd L))) in *.
  split.
  - intros H. apply (f_equal (option_map Explicit.a_sol)) in H.
    cbn [option_map Explicit.corrector Explicit.a_sol] in H.
    injection H as Ea. apply (proj1 Hiff). rewrite <- Ea.
    apply solver_meets_contract.
  - intros Hex. apply Hiff in Hex. apply solution_unique in Hex.
    rewrite <- Hex. reflexivity.
Qed.

End LumpedAgainstFull.

(** C5, as the code has it.  With a solver that returns the one solution of
    the constrained mass system, and for every step count: the run with the
    full mass matrix is the run with the inverse lumped diagonal exactly
    when, at every step of the latter, the row sums act on the new
    acceleration as the mass matrix does, on the unconstrained dofs.  The two
    variants are the same scheme on such runs only. *)
Theorem lumped_full_same_trajectory (solve : form2 -> form1 -> vector)
    (pd : problem_data) (p : Explicit.parameters)
    (tr : list (Qc * Explicit.state)) :
  Explicit.solver_ok solve pd ->
  (forall L x, solves pd (mass pd) L x -> x = solve (mass pd) L) ->
  Explicit.run solve pd (Explicit.with_lumped_mass true p) = Some tr ->
  (Explicit.run solve pd (Explicit.with_lumped_mass false p) = Some tr
   <-> Forall (fun ts => Lumping.exact_on pd (Explicit.a_sol (snd ts))) tr).
Proof.
  intros Hsolve Huniq. unfold Explicit.run.
  change (Explicit.dt (Explicit.with_lumped_mass false p)) with (Explicit.dt p).
  change (Explicit.dt (Explicit.with_lumped_mass true p)) with (Explicit.dt p).
  change (Explicit.num_steps (Explicit.with_lumped_mass false p))
    with (Explicit.num_steps p).
  change (Explicit.num_steps (Explicit.with_lumped_mass true p))
    with (Explicit.num_steps p).
  destruct (Explicit.dt p) as [h|]; [|discriminate].
  intros Hrun.
  apply (time_loop_same
           (Explicit.explicit_step solve pd (Explicit.with_lumped_mass true p)
              (Explicit.M_lumped_inv pd) h)
           (Explicit.explicit_step solve pd (Explicit.with_lumped_mass false p)
              (Explicit.M_lumped_inv pd) h)
           h (Explicit.admissible pd)
           (fun s => Lumping.exact_on pd (Explicit.a_sol s))).
  - intros n s s'. apply explicit_step_admissible.
    + intros H. discriminate H.
    + apply M_lumped_inv_length.
  - intros n s s' Hs Hstep.
    apply (lumped_step_is_full_step solve pd p Hsolve Huniq h n s s' Hs Hstep).
  - apply initial_state_admissible.
  - exact Hrun.
Qed.

Lemma bar_consistent_solution_unique L x :
  solves Bar.consistent (mass Bar.consistent) L x ->
  x = uncoupled_solve Bar.consistent (mass Bar.consistent) L.
Proof.
  intros Hx.
  pose proof (solves_satisfies_bc _ _ _ _ Hx) as Bx.
  destruct Hx as [Hl Hx].
  destruct (bar_arrays Bar.consistent x eq_refl eq_refl Hl Bx) as [x2 [x3 ->]].
  pose proof (Hx 2%nat ltac:(simpl; lia)) as H2.
  pose proof (Hx 3%nat ltac:(simpl; lia)) as H3.
  change (is_constrained (bc Bar.consistent) 2) with false in H2.
  change (is_constrained (bc Bar.consistent) 3) with false in H3.
  cbv iota in H2, H3.
  unfold uncoupled_solve.
  cbn [ndofs Bar.consistent seq map].
  change (is_constrained (bc Bar.consistent) 0) with true.
  change (is_constrained (bc Bar.consistent) 1) with true.
  change (is_constrained (bc Bar.consistent) 2) with false.
  change (is_constrained (bc Bar.consistent) 3) with false.
  cbv iota. rewrite !prescribed_bc.
  cbn [ndofs Bar.consistent] in H2, H3. rewrite <- H2, <- H3.
  assert (Htwo : Bar.two <> 0).
  { intros H. apply (f_equal this) in H. vm_compute in H. discriminate H. }
  repeat f_equal;
    cbv [mass Bar.consistent inner_dx rho matvec map dot basis seq Nat.eqb ndofs nth];
    field; exact Htwo.
Qed.

Lemma lumped_full_same_trajectory_witness :
  let pd := Bar.consistent in
  let solve := uncoupled_solve pd in
  let p0 := Bar.unloaded_parameters true true Bar.two 2 in
  let p1 := Bar.explicit_parameters true true Bar.two 2 in
  Explicit.run solve pd (Explicit.with_lumped_mass false p0)
  = Explicit.run solve pd (Explicit.with_lumped_mass true p0)
  /\ exists tr,
       Explicit.run solve pd (Explicit.with_lumped_mass true p1) = Some tr
       /\ ~ Forall (fun ts => Lumping.exact_on pd (Explicit.a_sol (snd ts))) tr.
Proof.
  intros pd solve p0 p1. split.
  - assert (Hrun : exists tr,
               Explicit.run solve pd (Explicit.with_lumped_mass true p0) = Some tr
               /\ Forall (fun ts => Lumping.exact_on pd (Explicit.a_sol (snd ts))) tr).
    { eexists. split; [reflexivity|].
      repeat constructor; intros i Hi Hc; bar_dof i Hi Hc;
        apply Qc_is_canon; vm_compute; reflexivity. }
    destruct Hrun as [tr [Hrun HF]]. rewrite Hrun.
    apply (lumped_full_same_trajectory solve pd p0 tr
             bar_consistent_solver_ok bar_consistent_solution_unique Hrun).
    exact HF.
  - assert (Hrun : exists tr,
               Explicit.run solve pd (Explicit.with_lumped_mass true p1) = Some tr)
      by (eexists; reflexivity).
    destruct Hrun as [tr Hrun]. exists tr. split; [exact Hrun|].
    intros HF.
    apply (lumped_full_same_trajectory solve pd p1 tr
             bar_consistent_solver_ok bar_consistent_solution_unique Hrun) in HF.
    rewrite <- Hrun in HF.
    apply (f_equal (option_map (map (fun ts => map this (Explicit.a_sol (snd ts))))))
      in HF.
    vm_compute in HF. discriminate HF.
Defined.

(* ================================================================= *)
(** * Further properties of the notebooks *)

(** ** Order on the rationals of the model, through their fractions *)

Lemma this_plus (x y : Qc) : (this (x + y) == this x + this y)%Q.
Proof. unfold Qcplus. exact (Qred_correct _). Qed.

Lemma this_mult (x y : Qc) : (this (x * y) == this x * this y)%Q.
Proof. unfold Qcmult. exact (Qred_correct _). Qed.

Lemma this_opp (x : Qc) : (this (- x) == - this x)%Q.
Proof. unfold Qcopp. exact (Qred_correct _). Qed.

Lemma this_minus (x y : Qc) : (this (x - y) == this x - this y)%Q.
Proof. unfold Qcminus. rewrite this_plus, this_opp. reflexivity. Qed.

Lemma this_0 : (this 0 == 0)%Q.
Proof. reflexivity. Qed.

Lemma this_1 : (this 1 == 1)%Q.
Proof. reflexivity. Qed.

Lemma Qc_eq_this (x y : Qc) : x = y <-> (this x == this y)%Q.
Proof.
  split.
  - intros ->. reflexivity.
  - apply Qc_is_canon.
Qed.

(** Moves a goal and the named hypotheses on [Qc] to the fractions. *)
Ltac to_fractions :=
  unfold Qcle, Qclt in *;
  repeat match goal with
         | H : @eq Qc _ _ |- _ => apply Qc_eq_this in H
         | |- @eq Qc _ _ => apply Qc_eq_this
         end;
  repeat (rewrite ?this_plus, ?this_minus, ?this_mult, ?this_opp, ?this_0, ?this_1 in * ).

(** ** The load schedule: bounds, monotonicity, failure *)

Lemma ramp_value sigma_max t_cutoff t :
  t_cutoff <> 0 -> sigma_max * t / t_cutoff * t_cutoff = sigma_max * t.
Proof. intros H. field. exact H. Qed.

(** X1. The load does not push: for a peak [sigma_max >= 0], a cut-off
    [t_cutoff > 0] and a time [t >= 0], [load_eval] returns a value that is
    not negative, and the value is zero at [t = 0] and after the cut-off. *)
Theorem load_eval_nonnegative (sigma_max t_cutoff t : Qc) :
  0 <= sigma_max -> 0 < t_cutoff -> 0 <= t ->
  (exists sigma, load_eval sigma_max t_cutoff t = Some sigma /\ 0 <= sigma)
  /\ load_eval sigma_max t_cutoff 0 = Some 0
  /\ (t_cutoff < t -> load_eval sigma_max t_cutoff t = Some 0).
Proof.
  intros Hs Hc Ht.
  assert (Hne : t_cutoff <> 0).
  { intros E. symmetry in E. exact (Qclt_not_eq _ _ Hc E). }
  split; [|split].
  - destruct (Qclt_le_dec t_cutoff t) as [Hlt|Hle].
    + exists 0. rewrite load_eval_after by exact Hlt.
      split; [reflexivity|apply Qcle_refl].
    + exists (sigma_max * t / t_cutoff). rewrite load_eval_ramp by assumption.
      split; [reflexivity|].
      pose proof (ramp_value sigma_max t_cutoff t Hne) as E.
      set (s := sigma_max * t / t_cutoff) in *. clearbody s. clear Hne.
      to_fractions. nra.
  - rewrite load_eval_ramp by (auto; apply Qclt_le_weak; exact Hc).
    f_equal. field. exact Hne.
  - apply load_eval_after.
Qed.

Lemma load_eval_nonnegative_witness :
  (exists sigma, load_eval 1 Bar.two 1 = Some sigma /\ 0 <= sigma)
  /\ load_eval 1 Bar.two 0 = Some 0.
Proof.
  destruct (load_eval_nonnegative 1 Bar.two 1) as [H1 [H2 _]].
  - apply Qle_bool_imp_le. reflexivity.
  - reflexivity.
  - apply Qle_bool_imp_le. reflexivity.
  - split; assumption.
Defined.

(** X2. On the ramp the load does not decrease with time: for a peak
    [sigma_max >= 0] and times [t1 <= t2 <= t_cutoff] the value at [t1] is
    at most the value at [t2]. *)
Theorem load_eval_monotone (sigma_max t_cutoff t1 t2 : Qc) :
  0 <= sigma_max -> 0 < t_cutoff -> t1 <= t2 -> t2 <= t_cutoff ->
  exists s1 s2,
    load_eval sigma_max t_cutoff t1 = Some s1
    /\ load_eval sigma_max t_cutoff t2 = Some s2
    /\ s1 <= s2.
Proof.
  intros Hs Hc H12 H2.
  assert (Hne : t_cutoff <> 0).
  { intros E. symmetry in E. exact (Qclt_not_eq _ _ Hc E). }
  assert (H1 : t1 <= t_cutoff) by (eapply Qcle_trans; eauto).
  exists (sigma_max * t1 / t_cutoff), (sigma_max * t2 / t_cutoff).
  rewrite !load_eval_ramp by assumption.
  split; [reflexivity|]. split; [reflexivity|].
  pose proof (ramp_value sigma_max t_cutoff t1 Hne) as E1.
  pose proof (ramp_value sigma_max t_cutoff t2 Hne) as E2.
  set (s1 := sigma_max * t1 / t_cutoff) in *. clearbody s1.
  set (s2 := sigma_max * t2 / t_cutoff) in *. clearbody s2. clear Hne.
  to_fractions. nra.
Qed.

Lemma load_eval_monotone_witness :
  exists s1 s2,
    load_eval 1 Bar.two 1 = Some s1
    /\ load_eval 1 Bar.two Bar.two = Some s2
    /\ s1 <= s2.
Proof.
  apply (load_eval_monotone 1 Bar.two 1 Bar.two).
  - apply Qle_bool_imp_le. reflexivity.
  - reflexivity.
  - apply Qle_bool_imp_le. reflexivity.
  - apply Qle_bool_imp_le. reflexivity.
Defined.

(** X3. [load_eval] fails, by a division by zero, exactly when the cut-off is
    zero and the time is not after it. *)
Theorem load_eval_fails_iff (sigma_max t_cutoff t : Qc) :
  load_eval sigma_max t_cutoff t = None <-> (t_cutoff = 0 /\ t <= 0).
Proof.
  unfold load_eval. split.
  - destruct (Qle_bool t t_cutoff) eqn:Hle; [|discriminate].
    destruct (Qc_eqb t_cutoff 0) eqn:Hz; [|discriminate].
    intros _. apply Qc_eqb_true in Hz. subst t_cutoff.
    split; [reflexivity|]. apply Qle_bool_iff in Hle. exact Hle.
  - intros [-> Ht]. unfold Qcle in Ht. apply Qle_bool_iff in Ht.
    rewrite Ht. reflexivity.
Qed.

(** ** The time axis of the explicit run *)

Lemma Qc_of_nat_nonzero n : n <> 0%nat -> Qc_of_nat n <> 0.
Proof.
  intros Hn H. apply Qc_eq_this in H. unfold Qc_of_nat in H.
  change (this (Q2Qc (inject_Z (Z.of_nat n)))) with (Qred (inject_Z (Z.of_nat n))) in H.
  rewrite Qred_correct in H. unfold Qeq in H. simpl in H. lia.
Qed.

Lemma tl_times h N :
  tl (Energy.times h N) = map (fun n => Qc_of_nat (n + 1) * h) (seq 0 N).
Proof.
  unfold Energy.times. rewrite Nat.add_1_r. simpl.
  rewrite <- seq_shift, map_map. apply map_ext.
  intros n. rewrite Nat.add_1_r. ring.
Qed.

(** X4. The time axis of a completed explicit run: [times] begins at zero
    and has one entry more than the run has steps, and the labels [(n+1)*dt]
    of the run are the entries of [times] after the first, in their order. *)
Theorem explicit_run_time_axis (solve : form2 -> form1 -> vector)
    (pd : problem_data) (p : Explicit.parameters)
    (tr : list (Qc * Explicit.state)) :
  Explicit.run solve pd p = Some tr ->
  exists h,
    Explicit.dt p = Some h
    /\ length (Energy.times h (Explicit.num_steps p)) = S (length tr)
    /\ nth 0 (Energy.times h (Explicit.num_steps p)) 0 = 0
    /\ map fst tr = tl (Energy.times h (Explicit.num_steps p))
    /\ forall k, (k < length tr)%nat ->
         fst (nth k tr (0, Explicit.initial_state pd))
         = nth (S k) (Energy.times h (Explicit.num_steps p)) 0.
Proof.
  intros Hrun. unfold Explicit.run in Hrun.
  destruct (Explicit.dt p) as [h|] eqn:Hh; [|discriminate].
  exists h. split; [reflexivity|].
  pose proof (time_loop_labels _ _ _ _ _ Hrun) as Hl.
  pose proof (time_loop_length _ _ _ _ _ Hrun) as Hlen. rewrite length_seq in Hlen.
  assert (Htl : map fst tr = tl (Energy.times h (Explicit.num_steps p)))
    by (rewrite tl_times; exact Hl).
  split; [|split; [|split; [exact Htl|]]].
  - unfold Energy.times. rewrite length_map, length_seq. lia.
  - unfold Energy.times. rewrite Nat.add_1_r. cbn [seq map nth].
    replace (Qc_of_nat 0) with 0 by (apply Qc_is_canon; reflexivity). ring.
  - intros k Hk.
    rewrite <- (map_nth fst tr (0, Explicit.initial_state pd) k). cbn [fst].
    rewrite Htl.
    destruct (Energy.times h (Explicit.num_steps p)) as [|t0 ts]; [|reflexivity].
    destruct k; reflexivity.
Qed.

Lemma explicit_run_time_axis_witness :
  exists tr h,
    Explicit.run (uncoupled_solve Bar.consistent) Bar.consistent
      (Bar.explicit_parameters true true Bar.two 2) = Some tr
    /\ map fst tr = tl (Energy.times h 2)
    /\ length (Energy.times h 2) = S (length tr).
Proof.
  eexists.
  destruct (explicit_run_time_axis (uncoupled_solve Bar.consistent)
              Bar.consistent (Bar.explicit_parameters true true Bar.two 2) _ eq_refl)
    as [h [_ [Hlen [_ [Hl _]]]]].
  exists h. split; [reflexivity|]. split; assumption.
Defined.

(** ** The lumped mass keeps the total mass *)

Lemma total_zero (A : Type) (l : list A) : Scaling.total (map (fun _ => 0) l) = 0.
Proof. induction l as [|a l IH]; simpl; [reflexivity|]. rewrite IH. ring. Qed.

Lemma total_nth_seq x n :
  Scaling.total (map (fun i => nth i x 0) (seq 0 n)) = dot x (full n 1).
Proof.
  unfold full. revert n. induction x as [|a x IH]; intros n.
  - simpl. rewrite (map_ext (fun i => nth i [] 0) (fun _ => 0)).
    + apply total_zero.
    + intros [|i]; reflexivity.
  - destruct n as [|n]; [reflexivity|].
    simpl. rewrite <- seq_shift, map_map. simpl.
    rewrite IH. ring.
Qed.

Lemma total_assemble_dot pd x :
  Scaling.total (assemble_vector pd (fun z => dot x z)) = dot x (full (ndofs pd) 1).
Proof.
  unfold assemble_vector.
  rewrite (map_ext_in _ (fun i => nth i x 0)).
  - apply total_nth_seq.
  - intros i Hi. apply in_seq in Hi. apply dot_basis. lia.
Qed.

Lemma total_vscale c x : Scaling.total (vscale c x) = c * Scaling.total x.
Proof.
  unfold vscale, Scaling.total.
  induction x as [|a x IH]; simpl; [ring|]. rewrite IH. ring.
Qed.

(** X5. Lumping keeps the total mass: the entries of the lumped mass, the row
    sums of the mass matrix, add up to the mass form at the constant
    function one. *)
Theorem lumped_mass_total (pd : problem_data) :
  Scaling.total (Explicit.M_lumped pd)
  = mass pd (full (ndofs pd) 1) (full (ndofs pd) 1).
Proof.
  unfold Explicit.M_lumped, mass.
  set (y := matvec (inner_dx pd) (full (ndofs pd) 1)).
  transitivity (Scaling.total (vscale (rho pd) (assemble_vector pd (fun z => dot y z)))).
  - f_equal. unfold vscale, assemble_vector. rewrite map_map. reflexivity.
  - rewrite total_vscale, total_assemble_dot. reflexivity.
Qed.

(** ** Central differences along an explicit run *)




(** ** Superposition in the linear, lumped run *)
















(** ** The energies of the explicit run *)

Lemma Qc_of_nat_pos n : n <> 0%nat -> 0 < Qc_of_nat n.
Proof.
  intros Hn. unfold Qclt, Qc_of_nat.
  change (this (Q2Qc (inject_Z (Z.of_nat n)))) with (Qred (inject_Z (Z.of_nat n))).
  rewrite Qred_correct. unfold Qlt. simpl. lia.
Qed.

Lemma time_step_nonneg t_end N h :
  0 <= t_end -> time_step t_end N = Some h -> 0 <= h.
Proof.
  intros Ht H. unfold time_step in H.
  destruct (Nat.eqb_spec N 0) as [|Hn]; [discriminate|]. inversion H as [Eh].
  pose proof (Qc_of_nat_pos N Hn) as Hpos.
  assert (E : t_end / Qc_of_nat N * Qc_of_nat N = t_end).
  { field. apply Qc_of_nat_nonzero. exact Hn. }
  set (x := t_end / Qc_of_nat N) in *. clearbody x.
  set (y := Qc_of_nat N) in *. clearbody y. clear Eh H.
  to_fractions. nra.
Qed.

Section Energies.

Variable pd : problem_data.
Variable p : Explicit.parameters.
Variable energy_nonlinear : vector -> Qc.
Variable h : Qc.

Lemma length_accumulate E0 tr :
  length (Energy.accumulate pd p energy_nonlinear h E0 tr) = length tr.
Proof.
  revert E0. induction tr as [|[t s] tr IH]; intros E0; simpl; auto.
Qed.

Lemma accumulate_nondecreasing r0 tr k :
  0 <= h -> (forall v, 0 <= Explicit.damping pd p v v) ->
  (S k < length (r0 :: Energy.accumulate pd p energy_nonlinear h (Energy.E_damp r0) tr))%nat ->
  Energy.E_damp
    (nth k (r0 :: Energy.accumulate pd p energy_nonlinear h (Energy.E_damp r0) tr)
         Energy.zero_row)
  <= Energy.E_damp
       (nth (S k) (r0 :: Energy.accumulate pd p energy_nonlinear h (Energy.E_damp r0) tr)
            Energy.zero_row).
Proof.
  intros Hh Hd. revert r0 k. induction tr as [|[t s] tr IH]; intros r0 k Hk.
  - simpl in Hk. lia.
  - destruct k as [|k].
    + simpl.
      pose proof (Hd (Explicit.v_sol s)) as Hs.
      set (d := Explicit.damping pd p (Explicit.v_sol s) (Explicit.v_sol s)) in *.
      clearbody d. set (e := Energy.E_damp r0). clearbody e.
      to_fractions. nra.
    + cbn [Energy.accumulate nth].
      set (r1 := {| Energy.E_elas := _; Energy.E_kin := _;
                    Energy.E_damp := _; Energy.E_tot := _ |}).
      apply (IH r1 k). simpl in Hk. simpl. rewrite length_accumulate in *. lia.
Qed.

Lemma accumulate_undamped E0 tr :
  Explicit.eta_m p = 0 -> Explicit.eta_k p = 0 -> E0 = 0 ->
  Forall (fun r => Energy.E_damp r = 0
                   /\ Energy.E_tot r = Energy.E_elas r + Energy.E_kin r)
         (Energy.accumulate pd p energy_nonlinear h E0 tr).
Proof.
  intros Hm Hk. revert E0. induction tr as [|[t s] tr IH]; intros E0 HE; simpl.
  - constructor.
  - assert (Ed : E0 + h * Explicit.damping pd p (Explicit.v_sol s) (Explicit.v_sol s) = 0).
    { unfold Explicit.damping, damping. rewrite Hm, Hk, HE. ring. }
    constructor.
    + simpl. split; [exact Ed|]. rewrite Ed. ring.
    + apply IH. exact Ed.
Qed.

End Energies.

(** X8. The dissipated energy never decreases: for an end time [t_end >= 0] and a
    damping form that is nonnegative on the diagonal, each row of [energies]
    has an [E_damp] at least that of the row before. *)
Theorem dissipated_energy_nondecreasing (solve : form2 -> form1 -> vector)
    (pd : problem_data) (p : Explicit.parameters)
    (energy_nonlinear : vector -> Qc) (rows : list Energy.row) (k : nat) :
  0 <= Explicit.t_end p ->
  (forall v, 0 <= Explicit.damping pd p v v) ->
  Energy.energies solve pd p energy_nonlinear = Some rows ->
  (S k < length rows)%nat ->
  Energy.E_damp (nth k rows Energy.zero_row)
  <= Energy.E_damp (nth (S k) rows Energy.zero_row).
Proof.
  intros Ht Hd He Hk. unfold Energy.energies in He.
  destruct (Explicit.dt p) as [h|] eqn:Hh; [|discriminate].
  destruct (Explicit.run solve pd p) as [tr|]; [|discriminate].
  inversion He; subst rows; clear He.
  apply (accumulate_nondecreasing pd p energy_nonlinear h Energy.zero_row tr k);
    auto.
  eapply time_step_nonneg; eauto.
Qed.

(** X9. Without damping ([eta_m = eta_k = 0]) nothing is dissipated: in every row
    of [energies], [E_damp] is zero and the total energy is the elastic plus
    the kinetic energy. *)
Theorem undamped_energies (solve : form2 -> form1 -> vector)
    (pd : problem_data) (p : Explicit.parameters)
    (energy_nonlinear : vector -> Qc) (rows : list Energy.row) :
  Explicit.eta_m p = 0 -> Explicit.eta_k p = 0 ->
  Energy.energies solve pd p energy_nonlinear = Some rows ->
  Forall (fun r => Energy.E_damp r = 0
                   /\ Energy.E_tot r = Energy.E_elas r + Energy.E_kin r) rows.
Proof.
  intros Hm Hk He. unfold Energy.energies in He.
  destruct (Explicit.dt p) as [h|]; [|discriminate].
  destruct (Explicit.run solve pd p) as [tr|]; [|discriminate].
  inversion He; subst rows; clear He. constructor.
  - simpl. split; [reflexivity|ring].
  - apply accumulate_undamped; auto.
Qed.

Lemma square_nonneg (q : Q) : (0 <= q * q)%Q.
Proof. nra. Qed.

Lemma bar_damping_nonneg v :
  0 <= Explicit.damping Bar.consistent (Bar.explicit_parameters true true Bar.two 2) v v.
Proof.
  unfold Explicit.damping, damping.
  cbn [Bar.explicit_parameters Explicit.eta_m Explicit.eta_k].
  assert (H : 0 <= stiffness_linear Bar.consistent v v).
  { destruct v as [|a [|b [|c [|d v]]]];
      cbv [stiffness_linear Bar.consistent Bar.springs elasticity_dx matvec map dot];
      to_fractions; try nra.
    - pose proof (square_nonneg (this a - this c)).
      pose proof (square_nonneg (this b)). nra.
    - pose proof (square_nonneg (this a - this c)).
      pose proof (square_nonneg (this b - this d)). nra. }
  set (k := stiffness_linear Bar.consistent v v) in *. clearbody k.
  set (m := mass Bar.consistent v v). clearbody m.
  to_fractions. nra.
Qed.

Lemma dissipated_energy_nondecreasing_witness :
  let pd := Bar.consistent in
  let p := Bar.explicit_parameters true true Bar.two 2 in
  exists rows,
    Energy.energies (uncoupled_solve pd) pd p Examples.hardening_energy = Some rows
    /\ Energy.E_damp (nth 1 rows Energy.zero_row)
       <= Energy.E_damp (nth 2 rows Energy.zero_row).
Proof.
  intros pd p. eexists. split; [reflexivity|].
  apply (dissipated_energy_nondecreasing (uncoupled_solve pd) pd p
           Examples.hardening_energy).
  - apply Qle_bool_imp_le. reflexivity.
  - exact bar_damping_nonneg.
  - reflexivity.
  - simpl. lia.
Defined.

Lemma undamped_energies_witness :
  let pd := Bar.consistent in
  let p := Examples.undamped_parameters true true Bar.two 2 in
  exists rows,
    Energy.energies (uncoupled_solve pd) pd p Examples.hardening_energy = Some rows
    /\ Forall (fun r => Energy.E_damp r = 0
                        /\ Energy.E_tot r = Energy.E_elas r + Energy.E_kin r) rows.
Proof.
  intros pd p. eexists. split; [reflexivity|].
  apply (undamped_energies (uncoupled_solve pd) pd p Examples.hardening_energy);
    reflexivity.
Defined.

Lemma accumulate_rest pd p energy_nonlinear h tr :
  (Explicit.use_linear_model p = false ->
   energy_nonlinear (full (ndofs pd) 0) = 0) ->
  Forall (fun ts => snd ts = Explicit.initial_state pd) tr ->
  Energy.accumulate pd p energy_nonlinear h 0 tr
  = repeat Energy.zero_row (length tr).
Proof.
  intros Hnl HF. induction HF as [|[t s] tr Hs HF IH]; [reflexivity|].
  simpl in Hs. subst s. cbn [Energy.accumulate length repeat].
  unfold Explicit.initial_state. cbn [Explicit.u_sol Explicit.v_sol].
  assert (Ee : Energy.elastic pd p energy_nonlinear (full (ndofs pd) 0) = 0).
  { unfold Energy.elastic, Explicit.stiffness.
    destruct (Explicit.use_linear_model p) eqn:El.
    - rewrite stiffness_linear_0. unfold Qcdiv. ring.
    - apply Hnl. reflexivity. }
  assert (Ek : Energy.kinetic pd (full (ndofs pd) 0) = 0).
  { unfold Energy.kinetic. rewrite mass_0. unfold Qcdiv. ring. }
  assert (Ed : 0 + h * Explicit.damping pd p (full (ndofs pd) 0) (full (ndofs pd) 0) = 0).
  { unfold Explicit.damping. rewrite damping_0. ring. }
  rewrite Ee, Ek, Ed.
  replace (0 + 0 + 0) with 0 by ring.
  fold (Explicit.initial_state pd). rewrite IH. reflexivity.
Qed.

(** X10. At rest no energy appears: without load and from the zero state, every
    row of [energies] of a completed explicit run is zero. *)
Theorem equilibrium_energies (solve : form2 -> form1 -> vector)
    (pd : problem_data) (p : Explicit.parameters)
    (energy_nonlinear : vector -> Qc) (rows : list Energy.row) :
  Explicit.sigma_max p = 0 ->
  (Explicit.use_linear_model p = false ->
   piola_dx pd (full (ndofs pd) 0) = full (ndofs pd) 0
   /\ energy_nonlinear (full (ndofs pd) 0) = 0) ->
  (Explicit.use_lumped_mass p = false ->
   forall L, (forall z, L z = 0) -> solve (mass pd) L = full (ndofs pd) 0) ->
  Energy.energies solve pd p energy_nonlinear = Some rows ->
  rows = repeat Energy.zero_row (S (Explicit.num_steps p)).
Proof.
  intros Hs Hnl Hz He. unfold Energy.energies in He.
  destruct (Explicit.dt p) as [h|] eqn:Hh; [|discriminate].
  destruct (Explicit.run solve pd p) as [tr|] eqn:Hrun; [|discriminate].
  inversion He; subst rows; clear He.
  pose proof (explicit_run_rest solve pd p Hs (fun H => proj1 (Hnl H)) Hz tr Hrun)
    as HF.
  rewrite (accumulate_rest pd p energy_nonlinear h tr (fun H => proj2 (Hnl H)) HF).
  unfold Explicit.run in Hrun. rewrite Hh in Hrun.
  apply time_loop_length in Hrun. rewrite Hrun, length_seq. reflexivity.
Qed.

Lemma equilibrium_energies_witness :
  let pd := Bar.diagonal in
  let p := Bar.unloaded_parameters false false Bar.two 2 in
  Energy.energies (uncoupled_solve pd) pd p Examples.hardening_energy
  = Some (repeat Energy.zero_row 3).
Proof.
  intros pd p.
  assert (He : exists rows,
             Energy.energies (uncoupled_solve pd) pd p Examples.hardening_energy
             = Some rows) by (eexists; reflexivity).
  destruct He as [rows He]. rewrite He. f_equal.
  apply (equilibrium_energies (uncoupled_solve pd) pd p
           Examples.hardening_energy rows).
  - reflexivity.
  - intros _. split.
    + apply veqb_true. vm_compute. reflexivity.
    + apply Qc_is_canon. vm_compute. reflexivity.
  - intros _ L HL. apply (uncoupled_solve_zero pd (mass pd) L HL).
  - exact He.
Defined.

(** ** The constitutive law at a point *)

Lemma tensor_ext (a b : Material.tensor) :
  Material.t00 a = Material.t00 b -> Material.t01 a = Material.t01 b ->
  Material.t10 a = Material.t10 b -> Material.t11 a = Material.t11 b -> a = b.
Proof. destruct a, b. simpl. intros -> -> -> ->. reflexivity. Qed.

(** X11. The integrand of the linear stiffness form is symmetric in the two
    displacement gradients, whatever the Lame coefficients. *)
Theorem stiffness_linear_symmetric (lambda_ mu : Qc)
    (grad_u grad_v : Material.tensor) :
  Material.stiffness_linear lambda_ mu grad_u grad_v
  = Material.stiffness_linear lambda_ mu grad_v grad_u.
Proof.
  unfold Material.stiffness_linear, Material.stress_linear,
    Material.strain_displacement, Material.sym, Material.inner, Material.tr,
    Material.tadd, Material.tscale, Material.transpose, Material.I2.
  simpl. unfold Qcdiv. ring.
Qed.

(** X12. An infinitesimal rotation carries no strain and no stress: adding a
    skew tensor to the displacement gradient changes neither
    [strain_displacement] nor the stress computed from it. *)
Theorem strain_ignores_rotation (lambda_ mu : Qc) (grad_u w : Material.tensor) :
  Material.transpose w = Material.tscale (- (1)) w ->
  Material.strain_displacement (Material.tadd grad_u w)
  = Material.strain_displacement grad_u
  /\ Material.stress_linear lambda_ mu
       (Material.strain_displacement (Material.tadd grad_u w))
     = Material.stress_linear lambda_ mu (Material.strain_displacement grad_u).
Proof.
  intros Hw.
  assert (E : Material.strain_displacement (Material.tadd grad_u w)
              = Material.strain_displacement grad_u).
  { destruct w as [w00 w01 w10 w11]. unfold Material.transpose, Material.tscale in Hw.
    simpl in Hw. injection Hw as H00 H01 H10 H11.
    unfold Material.strain_displacement, Material.sym, Material.tadd,
      Material.tscale, Material.transpose. simpl.
    apply tensor_ext; simpl.
    - rewrite H00 at 2. unfold Qcdiv. ring.
    - rewrite H10. unfold Qcdiv. ring.
    - rewrite H01. unfold Qcdiv. ring.
    - rewrite H11 at 2. unfold Qcdiv. ring. }
  split; [exact E|]. rewrite E. reflexivity.
Qed.

Lemma strain_ignores_rotation_witness :
  let grad_u := {| Material.t00 := 1; Material.t01 := 1;
                   Material.t10 := 0; Material.t11 := 0 |} in
  let w := {| Material.t00 := 0; Material.t01 := - (1);
              Material.t10 := 1; Material.t11 := 0 |} in
  Material.strain_displacement (Material.tadd grad_u w)
  = Material.strain_displacement grad_u.
Proof.
  intros grad_u w.
  apply (strain_ignores_rotation 1 1 grad_u w).
  apply tensor_ext; apply Qc_is_canon; reflexivity.
Defined.

Lemma half_double : 1 / Material.two + 1 / Material.two = 1.
Proof.
  unfold Material.two. field. intros H. apply Qc_eq_this in H.
  vm_compute in H. discriminate H.
Qed.

Lemma stiffness_linear_nonneg (lambda_ mu : Qc) (g : Material.tensor) :
  0 <= lambda_ -> 0 <= mu -> 0 <= Material.stiffness_linear lambda_ mu g g.
Proof.
  intros Hl Hm. destruct g as [a b c d].
  unfold Material.stiffness_linear, Material.stress_linear,
    Material.strain_displacement, Material.sym, Material.inner, Material.tr,
    Material.tadd, Material.tscale, Material.transpose, Material.I2.
  cbn [Material.t00 Material.t01 Material.t10 Material.t11].
  pose proof half_double as Hh. unfold Material.two in *.
  set (hf := 1 / (1 + 1)) in *. clearbody hf.
  to_fractions.
  assert (Eh : (this hf * 2 == 1)%Q) by lra.
  pose proof (square_nonneg (this a + this d)) as S1.
  pose proof (square_nonneg (this a)) as S2.
  pose proof (square_nonneg (this d)) as S3.
  pose proof (square_nonneg (this b + this c)) as S4.
  pose proof (Qmult_le_0_compat _ _ Hl S1) as P1.
  pose proof (Qmult_le_0_compat _ _ Hm S2) as P2.
  pose proof (Qmult_le_0_compat _ _ Hm S3) as P3.
  pose proof (Qmult_le_0_compat _ _ Hm S4) as P4.
  nra.
Qed.

Lemma div_mult (x d : Qc) : d <> 0 -> x / d * d = x.
Proof. intros H. field. exact H. Qed.

(** X13. For a material with Young modulus [Y > 0] and Poisson ratio
    [0 <= nu < 1/2], the two Lame coefficients of the material cell are
    defined, [mu] is positive, [lambda_] is not negative, and the integrand
    of the linear stiffness form is not negative on equal arguments: the
    elastic energy density is never negative. *)
Theorem elastic_energy_density_nonneg (Y nu : Qc) :
  0 < Y -> 0 <= nu -> Material.two * nu < 1 ->
  exists lam m,
    Material.lambda_ Y nu = Some lam
    /\ Material.mu Y nu = Some m
    /\ 0 <= lam /\ 0 < m
    /\ forall g, 0 <= Material.stiffness_linear lam m g g.
Proof.
  intros HY Hnu Hhalf.
  assert (D1 : 0 < Material.two * (1 + nu)).
  { unfold Material.two in *. to_fractions. nra. }
  assert (D2 : 0 < (1 + nu) * (1 - Material.two * nu)).
  { unfold Material.two in *. to_fractions. nra. }
  assert (N1 : Material.two * (1 + nu) <> 0).
  { intros E. rewrite E in D1. exact (Qclt_not_eq _ _ D1 eq_refl). }
  assert (N2 : (1 + nu) * (1 - Material.two * nu) <> 0).
  { intros E. rewrite E in D2. exact (Qclt_not_eq _ _ D2 eq_refl). }
  exists (Y * nu / ((1 + nu) * (1 - Material.two * nu))), (Y / (Material.two * (1 + nu))).
  unfold Material.lambda_, Material.mu.
  pose proof N1 as B1. pose proof N2 as B2.
  apply Qc_eqb_false in B1. apply Qc_eqb_false in B2. rewrite B1, B2.
  split; [reflexivity|]. split; [reflexivity|].
  assert (E1 : Y / (Material.two * (1 + nu)) * (Material.two * (1 + nu)) = Y)
    by (apply div_mult; exact N1).
  assert (E2 : Y * nu / ((1 + nu) * (1 - Material.two * nu))
               * ((1 + nu) * (1 - Material.two * nu)) = Y * nu)
    by (apply div_mult; exact N2).
  set (m := Y / (Material.two * (1 + nu))) in *. clearbody m.
  set (lam := Y * nu / ((1 + nu) * (1 - Material.two * nu))) in *. clearbody lam.
  set (d1 := Material.two * (1 + nu)) in *. clearbody d1.
  set (d2 := (1 + nu) * (1 - Material.two * nu)) in *. clearbody d2.
  clear N1 N2 B1 B2 Hhalf.
  assert (Hlam : 0 <= lam) by (to_fractions; nra).
  assert (Hm : 0 < m) by (to_fractions; nra).
  split; [exact Hlam|]. split; [exact Hm|].
  intros g. apply stiffness_linear_nonneg; [exact Hlam|].
  apply Qclt_le_weak. exact Hm.
Qed.

Lemma elastic_energy_density_nonneg_witness :
  exists lam m,
    Material.lambda_ 1 (1 / (1 + 1 + 1)) = Some lam
    /\ Material.mu 1 (1 / (1 + 1 + 1)) = Some m
    /\ 0 <= lam /\ 0 < m.
Proof.
  destruct (elastic_energy_density_nonneg 1 (1 / (1 + 1 + 1)))
    as [lam [m [El [Em [Hl [Hm _]]]]]].
  - reflexivity.
  - apply Qle_bool_imp_le. reflexivity.
  - reflexivity.
  - exists lam, m. repeat split; assumption.
Defined.

(** X14. The material cell fails, by a division by zero, exactly in two cases:
    [mu] for [nu = -1], [lambda_] for [nu = -1] and for the incompressible
    limit [2 nu = 1]. *)
Theorem lame_coefficients_fail_iff (Y nu : Qc) :
  (Material.mu Y nu = None <-> nu = - (1))
  /\ (Material.lambda_ Y nu = None <-> (nu = - (1) \/ Material.two * nu = 1)).
Proof.
  assert (Htwo : Material.two <> 0).
  { intros H. apply Qc_eq_this in H. vm_compute in H. discriminate H. }
  split.
  - unfold Material.mu. destruct (Qc_eqb _ 0) eqn:E.
    + apply Qc_eqb_true in E. split; [intros _|reflexivity].
      destruct (Qcmult_integral _ _ E) as [H|H]; [contradiction|].
      replace nu with (1 + nu - 1) by ring. rewrite H. ring.
    + apply Qc_eqb_false in E. split; [discriminate|].
      intros ->. exfalso. apply E. ring.
  - unfold Material.lambda_. destruct (Qc_eqb _ 0) eqn:E.
    + apply Qc_eqb_true in E. split; [intros _|reflexivity].
      destruct (Qcmult_integral _ _ E) as [H|H].
      * left. replace nu with (1 + nu - 1) by ring. rewrite H. ring.
      * right. replace (Material.two * nu)
          with (1 - (1 - Material.two * nu)) by ring.
        rewrite H. ring.
    + apply Qc_eqb_false in E. split; [discriminate|].
      intros [->|H]; exfalso; apply E; [ring|]. rewrite H. ring.
Qed.

(** ** A conserved discrete energy *)







Section ShadowEnergy.

Variable solve : form2 -> form1 -> vector.
Variable pd : problem_data.
Variable p : Explicit.parameters.
Variable h : Qc.

Hypothesis linear_model : Explicit.use_linear_model p = true.
Hypothesis lumped_mass : Explicit.use_lumped_mass p = true.
Hypothesis no_mass_damping : Explicit.eta_m p = 0.
Hypothesis no_stiffness_damping : Explicit.eta_k p = 0.

Hypothesis stiffness_symmetric :
  forall x y, length x = ndofs pd -> length y = ndofs pd ->
              stiffness_linear pd x y = stiffness_linear pd y x.



End ShadowEnergy.



